(** * c3lingo: the data model of [c3lingo/models.py]

    The repository is a Django application whose substance is one file,
    [c3lingo/models.py]: ten model classes, their foreign keys with an
    [on_delete] policy each, three uniqueness constraints, one field
    default and five read-only properties.

    This development embeds

    - the rows of every model as records (one module per model, the
      fields under the names of the source);
    - the database as one finite map per table, keyed by primary key;
    - the schema of foreign keys as an enumeration [fk] with the tables
      [fk_model], [fk_to], [on_delete] read off the source;
    - the framework's row creation (foreign-key and uniqueness checks)
      and row deletion (the deletion collector, which follows
      [on_delete]) as functions in an error monad;
    - the properties [Shift.language_or_any], [Talk.slug],
      [Talk.watch_url], [Talk.slides_url] and [Translator.avatar_url]
      over a small model of Python attribute lookup, [str.format],
      [hashlib.md5] and [get_random_string]. *)

From Stdlib Require Import ZArith NArith Ascii String.
From Stdlib.Strings Require Byte.
From stdpp Require Import gmap strings list fin_maps pretty finite.

Local Open Scope string_scope.

(** ** Exceptions and the error monad *)

(** The exceptions the modelled code can raise.  [IntegrityError] and
    [ProtectedError] come from the storage layer, [DoesNotExist] from
    following a dangling reference, the others from the Python runtime. *)
Inductive exn :=
  | IntegrityError
  | ProtectedError
  | DoesNotExist
  | AttributeError
  | NameError
  | TypeError
  | KeyError
  | IndexError
  | ValueError
  | RecursionError.

Global Instance exn_eq_dec : EqDecision exn.
Proof. solve_decision. Defined.

Inductive result (A : Type) :=
  | Ok (a : A)
  | Raise (e : exn).
Arguments Ok {A} a.
Arguments Raise {A} e.

Global Instance result_ret : MRet result := @Ok.
Global Instance result_bind : MBind result := λ A B f r,
  match r with
  | Ok a => f a
  | Raise e => Raise e
  end.

Definition is_Ok {A} (r : result A) : Prop := ∃ a, r = Ok a.

(** A monadic left fold: the loop [for x in l: c = f(c, x)] in which the
    body may raise. *)
Section foldM.
Context {A B : Type} (f : A → B → result A).

Fixpoint foldM (a : A) (l : list B) : result A :=
  match l with
  | [] => Ok a
  | x :: l' =>
      match f a x with
      | Ok a' => foldM a' l'
      | Raise e => Raise e
      end
  end.
End foldM.

(** ** Rows *)

(** Primary keys are the positive integers of an [AutoField]. *)
Abbreviation pk := positive (only parsing).

(** A [DateTimeField] value, kept as its textual rendering. *)
Definition datetime := string.

(** [django.contrib.auth.models.User]; of the framework's user only the
    two fields that [models.py] reads. *)
Module User.
Record t := mk {
  username : string;
  email : string;
}.
End User.

Module Language.
Record t := mk {
  code : string;
  name_en : string;
  name_self : string;
}.
End Language.

Module Conference.
Record t := mk {
  shortname : string;
  name : string;
  image_url : string;
  start : option datetime;
  end_ : option datetime;
  fahrplan_version : string;
}.
End Conference.

Module Room.
Record t := mk {
  conference : pk;
  name : string;
}.
End Room.

(** The fields of the abstract base class [TalkBaseModel] are inlined in
    its two concrete subclasses, [Talk] and [Translation]. *)
Module Talk.
Record t := mk {
  title : string;
  subtitle : string;
  abstract : string;
  description : string;
  conference : pk;
  fahrplan_id : string;
  fahrplan_guid : string;
  logo_url : string;
  talk_type : string;
  speakers : string;
  language : pk;
  room : pk;
  start : datetime;
  end_ : datetime;
}.
End Talk.

Module Translation.
Record t := mk {
  title : string;
  subtitle : string;
  abstract : string;
  description : string;
  author : option pk;
  talk : pk;
  language : pk;
}.

Definition clear_author (r : t) : t :=
  mk (title r) (subtitle r) (abstract r) (description r) None
     (talk r) (language r).
End Translation.

Module Translator.
Record t := mk {
  user : pk;
  confirmed : bool;
  bio : string;
  contact_info : string;
  secret_token : string;
}.
End Translator.

Module TranslatorSpeaks.
Record t := mk {
  user : pk;
  language : pk;
}.
End TranslatorSpeaks.

Module Booth.
Record t := mk {
  room : pk;
  name : string;
  location : string;
  dect : string;
  desired_occupancy : N;
  maximum_occupancy : N;
}.
End Booth.

Module Shift.
Record t := mk {
  booth : pk;
  talk : pk;
  language : option pk;
}.

Definition clear_language (r : t) : t := mk (booth r) (talk r) None.
End Shift.

Module ShiftAssignment.
Record t := mk {
  shift : pk;
  user : pk;
  waitlisted : bool;
  freeloaded : bool;
  comment : string;
}.
End ShiftAssignment.

(** ** The database *)

Record DB := mkDB {
  users : gmap pk User.t;
  languages : gmap pk Language.t;
  conferences : gmap pk Conference.t;
  rooms : gmap pk Room.t;
  talks : gmap pk Talk.t;
  translations : gmap pk Translation.t;
  translators : gmap pk Translator.t;
  translatorspeaks : gmap pk TranslatorSpeaks.t;
  booths : gmap pk Booth.t;
  shifts : gmap pk Shift.t;
  shiftassignments : gmap pk ShiftAssignment.t;
}.

Definition empty_db : DB := mkDB ∅ ∅ ∅ ∅ ∅ ∅ ∅ ∅ ∅ ∅ ∅.

(** ** The schema *)

Inductive model :=
  | MUser
  | MLanguage
  | MConference
  | MRoom
  | MTalk
  | MTranslation
  | MTranslator
  | MTranslatorSpeaks
  | MBooth
  | MShift
  | MShiftAssignment.

Global Instance model_eq_dec : EqDecision model.
Proof. solve_decision. Defined.

Definition all_models : list model :=
  [MUser; MLanguage; MConference; MRoom; MTalk; MTranslation; MTranslator;
   MTranslatorSpeaks; MBooth; MShift; MShiftAssignment].

Global Instance model_finite : Finite model.
Proof.
  refine {| enum := all_models |}.
  - by apply (bool_decide_unpack _).
  - by intros []; apply (bool_decide_unpack _).
Defined.

(** An object of the database: a table and a primary key. *)
Definition obj : Type := model * pk.

(** The deletion policies that [models.py] uses. *)
Inductive policy :=
  | CASCADE
  | PROTECT
  | SET_NULL.

Global Instance policy_eq_dec : EqDecision policy.
Proof. solve_decision. Defined.

(** The sixteen foreign keys of [models.py], in the order of the file
    ([OneToOneField] is a foreign key with a uniqueness constraint). *)
Inductive fk :=
  | Room_conference
  | Talk_conference
  | Talk_language
  | Talk_room
  | Translation_author
  | Translation_talk
  | Translation_language
  | Translator_user
  | TranslatorSpeaks_user
  | TranslatorSpeaks_language
  | Booth_room
  | Shift_booth
  | Shift_talk
  | Shift_language
  | ShiftAssignment_shift
  | ShiftAssignment_user.

Global Instance fk_eq_dec : EqDecision fk.
Proof. solve_decision. Defined.

Definition all_fks : list fk :=
  [Room_conference; Talk_conference; Talk_language; Talk_room;
   Translation_author; Translation_talk; Translation_language;
   Translator_user; TranslatorSpeaks_user; TranslatorSpeaks_language;
   Booth_room; Shift_booth; Shift_talk; Shift_language;
   ShiftAssignment_shift; ShiftAssignment_user].

Global Instance fk_finite : Finite fk.
Proof.
  refine {| enum := all_fks |}.
  - by apply (bool_decide_unpack _).
  - by intros []; apply (bool_decide_unpack _).
Defined.

(** The model that declares the field. *)
Definition fk_model (f : fk) : model :=
  match f with
  | Room_conference => MRoom
  | Talk_conference | Talk_language | Talk_room => MTalk
  | Translation_author | Translation_talk | Translation_language =>
      MTranslation
  | Translator_user => MTranslator
  | TranslatorSpeaks_user | TranslatorSpeaks_language => MTranslatorSpeaks
  | Booth_room => MBooth
  | Shift_booth | Shift_talk | Shift_language => MShift
  | ShiftAssignment_shift | ShiftAssignment_user => MShiftAssignment
  end.

(** The model the field points to. *)
Definition fk_to (f : fk) : model :=
  match f with
  | Room_conference | Talk_conference => MConference
  | Talk_language | Translation_language | TranslatorSpeaks_language
  | Shift_language => MLanguage
  | Talk_room | Booth_room => MRoom
  | Translation_author | Translator_user | TranslatorSpeaks_user
  | ShiftAssignment_user => MUser
  | Translation_talk | Shift_talk => MTalk
  | Shift_booth => MBooth
  | ShiftAssignment_shift => MShift
  end.

(** The [on_delete] argument of the field. *)
Definition on_delete (f : fk) : policy :=
  match f with
  | Room_conference => PROTECT
  | Talk_conference => PROTECT
  | Talk_language => PROTECT
  | Talk_room => PROTECT
  | Translation_author => SET_NULL
  | Translation_talk => CASCADE
  | Translation_language => PROTECT
  | Translator_user => CASCADE
  | TranslatorSpeaks_user => CASCADE
  | TranslatorSpeaks_language => PROTECT
  | Booth_room => PROTECT
  | Shift_booth => PROTECT
  | Shift_talk => CASCADE
  | Shift_language => PROTECT
  | ShiftAssignment_shift => CASCADE
  | ShiftAssignment_user => CASCADE
  end.

(** The column of a foreign key: for every row of the declaring table
    the key it stores, [None] for a null. *)
Definition fk_column (db : DB) (f : fk) : gmap pk (option pk) :=
  match f with
  | Room_conference => (λ r, Some (Room.conference r)) <$> rooms db
  | Talk_conference => (λ r, Some (Talk.conference r)) <$> talks db
  | Talk_language => (λ r, Some (Talk.language r)) <$> talks db
  | Talk_room => (λ r, Some (Talk.room r)) <$> talks db
  | Translation_author => Translation.author <$> translations db
  | Translation_talk => (λ r, Some (Translation.talk r)) <$> translations db
  | Translation_language =>
      (λ r, Some (Translation.language r)) <$> translations db
  | Translator_user => (λ r, Some (Translator.user r)) <$> translators db
  | TranslatorSpeaks_user =>
      (λ r, Some (TranslatorSpeaks.user r)) <$> translatorspeaks db
  | TranslatorSpeaks_language =>
      (λ r, Some (TranslatorSpeaks.language r)) <$> translatorspeaks db
  | Booth_room => (λ r, Some (Booth.room r)) <$> booths db
  | Shift_booth => (λ r, Some (Shift.booth r)) <$> shifts db
  | Shift_talk => (λ r, Some (Shift.talk r)) <$> shifts db
  | Shift_language => Shift.language <$> shifts db
  | ShiftAssignment_shift =>
      (λ r, Some (ShiftAssignment.shift r)) <$> shiftassignments db
  | ShiftAssignment_user =>
      (λ r, Some (ShiftAssignment.user r)) <$> shiftassignments db
  end.

(** The primary keys of a table. *)
Definition pks (db : DB) (m : model) : gset pk :=
  match m with
  | MUser => dom (users db)
  | MLanguage => dom (languages db)
  | MConference => dom (conferences db)
  | MRoom => dom (rooms db)
  | MTalk => dom (talks db)
  | MTranslation => dom (translations db)
  | MTranslator => dom (translators db)
  | MTranslatorSpeaks => dom (translatorspeaks db)
  | MBooth => dom (booths db)
  | MShift => dom (shifts db)
  | MShiftAssignment => dom (shiftassignments db)
  end.

Definition exists_obj (db : DB) (o : obj) : Prop := o.2 ∈ pks db o.1.

Global Instance exists_obj_dec db o : Decision (exists_obj db o).
Proof. unfold exists_obj. apply _. Defined.

(** The rows of the declaring table whose field [f] holds the key [p],
    as the list of their primary keys in ascending table order. *)
Definition related_objects (db : DB) (f : fk) (p : pk) : list pk :=
  (map_to_list (filter (λ kv, kv.2 = Some p) (fk_column db f))).*1.

(** ** Deleting a row: the deletion collector *)

(** What a deletion has gathered so far: the objects to delete and the
    nullable fields to set to null, as pairs of a field and the primary
    key of the row that holds it. *)
Record Collector := mkCollector {
  data : gset obj;
  field_updates : gset (fk * pk);
}.

Definition empty_collector : Collector := mkCollector ∅ ∅.

Definition add (o : obj) (c : Collector) : Collector :=
  mkCollector ({[o]} ∪ data c) (field_updates c).

Definition add_field_update (f : fk) (sub_objs : list pk) (c : Collector)
    : Collector :=
  mkCollector (data c)
              (list_to_set ((λ i, (f, i)) <$> sub_objs) ∪ field_updates c).

(** One related field [f] of the object [o] under collection: the rows
    that reference [o] through [f] are handed to the field's
    [on_delete].  [CASCADE] collects them in turn ([rec] is the
    recursive call), [PROTECT] refuses, [SET_NULL] schedules an update.
    A field that points to another model, or through which nothing
    references [o], contributes nothing. *)
Definition collect_field (rec : Collector → obj → result Collector)
    (db : DB) (o : obj) (c : Collector) (f : fk) : result Collector :=
  if decide (fk_to f = o.1) then
    let sub_objs := related_objects db f o.2 in
    if decide (sub_objs = []) then Ok c
    else
      match on_delete f with
      | CASCADE => foldM (λ c s, rec c (fk_model f, s)) c sub_objs
      | PROTECT => Raise ProtectedError
      | SET_NULL => Ok (add_field_update f sub_objs c)
      end
  else Ok c.

(** The collector's recursion.  [depth] is the room left on the call
    stack; running out of it is Python's [RecursionError].  The
    collector's test for objects seen before only cuts repeated visits
    and is left out: the result is the same. *)
Fixpoint collect (depth : nat) (db : DB) (c : Collector) (o : obj)
    : result Collector :=
  match depth with
  | O => Raise RecursionError
  | S d => foldM (collect_field (collect d db) db o) (add o c) all_fks
  end.

(** The rows of model [m] that survive. *)
Definition keep {A} (c : Collector) (m : model) (t : gmap pk A)
    : gmap pk A :=
  filter (λ kv, (m, kv.1) ∉ data c) t.

(** The scheduled updates of the nullable field [f], applied. *)
Definition null_where {A} (c : Collector) (f : fk) (clear : A → A)
    (t : gmap pk A) : gmap pk A :=
  map_imap (λ i r,
    Some (if decide ((f, i) ∈ field_updates c) then clear r else r)) t.

(** The collector executed: field updates first, then the deletions.
    The two nullable fields of the schema are [Translation.author] and
    [Shift.language]. *)
Definition purge (c : Collector) (db : DB) : DB :=
  {| users := keep c MUser (users db);
     languages := keep c MLanguage (languages db);
     conferences := keep c MConference (conferences db);
     rooms := keep c MRoom (rooms db);
     talks := keep c MTalk (talks db);
     translations :=
       keep c MTranslation
         (null_where c Translation_author Translation.clear_author
            (translations db));
     translators := keep c MTranslator (translators db);
     translatorspeaks := keep c MTranslatorSpeaks (translatorspeaks db);
     booths := keep c MBooth (booths db);
     shifts :=
       keep c MShift
         (null_where c Shift_language Shift.clear_language (shifts db));
     shiftassignments := keep c MShiftAssignment (shiftassignments db) |}.

(** The recursion depth granted to a deletion.  A cascade step goes from
    a model to a model that references it, and no chain of references in
    the schema is longer than the number of models. *)
Definition recursion_limit : nat := length all_models.

(** [instance.delete()]. *)
Definition delete (db : DB) (o : obj) : result DB :=
  c ← collect recursion_limit db empty_collector o;
  Ok (purge c db).

(** ** Creating a row *)

(** A foreign key must point to an existing row. *)
Definition check_fk (db : DB) (m : model) (p : pk) : result unit :=
  if decide (exists_obj db (m, p)) then Ok () else Raise IntegrityError.

Definition check_fk_null (db : DB) (m : model) (p : option pk)
    : result unit :=
  match p with
  | Some p => check_fk db m p
  | None => Ok ()
  end.

(** A uniqueness constraint: no row of the table agrees with the new
    one on the constrained columns. *)
Definition check_unique {A K} `{EqDecision K} (cols : A → K) (r : A)
    (t : gmap pk A) : result unit :=
  if decide (map_Exists (λ _ r', cols r' = cols r) t)
  then Raise IntegrityError else Ok ().

(** The key the table's sequence hands out next. *)
Definition next_pk {A} (t : gmap pk A) : pk := fresh (dom t).

Definition create_User (r : User.t) (db : DB) : result (pk * DB) :=
  let i := next_pk (users db) in
  Ok (i, {| users := <[i := r]> (users db);
            languages := languages db;
            conferences := conferences db;
            rooms := rooms db;
            talks := talks db;
            translations := translations db;
            translators := translators db;
            translatorspeaks := translatorspeaks db;
            booths := booths db;
            shifts := shifts db;
            shiftassignments := shiftassignments db |}).

Definition create_Language (r : Language.t) (db : DB) : result (pk * DB) :=
  let i := next_pk (languages db) in
  Ok (i, {| users := users db;
            languages := <[i := r]> (languages db);
            conferences := conferences db;
            rooms := rooms db;
            talks := talks db;
            translations := translations db;
            translators := translators db;
            translatorspeaks := translatorspeaks db;
            booths := booths db;
            shifts := shifts db;
            shiftassignments := shiftassignments db |}).

Definition create_Conference (r : Conference.t) (db : DB)
    : result (pk * DB) :=
  let i := next_pk (conferences db) in
  Ok (i, {| users := users db;
            languages := languages db;
            conferences := <[i := r]> (conferences db);
            rooms := rooms db;
            talks := talks db;
            translations := translations db;
            translators := translators db;
            translatorspeaks := translatorspeaks db;
            booths := booths db;
            shifts := shifts db;
            shiftassignments := shiftassignments db |}).

Definition create_Room (r : Room.t) (db : DB) : result (pk * DB) :=
  _ ← check_fk db MConference (Room.conference r);
  let i := next_pk (rooms db) in
  Ok (i, {| users := users db;
            languages := languages db;
            conferences := conferences db;
            rooms := <[i := r]> (rooms db);
            talks := talks db;
            translations := translations db;
            translators := translators db;
            translatorspeaks := translatorspeaks db;
            booths := booths db;
            shifts := shifts db;
            shiftassignments := shiftassignments db |}).

(** [unique_together = [['conference', 'fahrplan_id']]]. *)
Definition create_Talk (r : Talk.t) (db : DB) : result (pk * DB) :=
  _ ← check_fk db MConference (Talk.conference r);
  _ ← check_fk db MLanguage (Talk.language r);
  _ ← check_fk db MRoom (Talk.room r);
  _ ← check_unique (λ r, (Talk.conference r, Talk.fahrplan_id r)) r
        (talks db);
  let i := next_pk (talks db) in
  Ok (i, {| users := users db;
            languages := languages db;
            conferences := conferences db;
            rooms := rooms db;
            talks := <[i := r]> (talks db);
            translations := translations db;
            translators := translators db;
            translatorspeaks := translatorspeaks db;
            booths := booths db;
            shifts := shifts db;
            shiftassignments := shiftassignments db |}).

(** [unique_together = [['talk', 'language']]]. *)
Definition create_Translation (r : Translation.t) (db : DB)
    : result (pk * DB) :=
  _ ← check_fk_null db MUser (Translation.author r);
  _ ← check_fk db MTalk (Translation.talk r);
  _ ← check_fk db MLanguage (Translation.language r);
  _ ← check_unique (λ r, (Translation.talk r, Translation.language r)) r
        (translations db);
  let i := next_pk (translations db) in
  Ok (i, {| users := users db;
            languages := languages db;
            conferences := conferences db;
            rooms := rooms db;
            talks := talks db;
            translations := <[i := r]> (translations db);
            translators := translators db;
            translatorspeaks := translatorspeaks db;
            booths := booths db;
            shifts := shifts db;
            shiftassignments := shiftassignments db |}).

(** Saving a [Translator] row; [user] is a [OneToOneField], hence
    unique.  The row comes with its [secret_token] filled in, see
    [create_Translator] below. *)
Definition insert_Translator (r : Translator.t) (db : DB)
    : result (pk * DB) :=
  _ ← check_fk db MUser (Translator.user r);
  _ ← check_unique Translator.user r (translators db);
  let i := next_pk (translators db) in
  Ok (i, {| users := users db;
            languages := languages db;
            conferences := conferences db;
            rooms := rooms db;
            talks := talks db;
            translations := translations db;
            translators := <[i := r]> (translators db);
            translatorspeaks := translatorspeaks db;
            booths := booths db;
            shifts := shifts db;
            shiftassignments := shiftassignments db |}).

Definition create_TranslatorSpeaks (r : TranslatorSpeaks.t) (db : DB)
    : result (pk * DB) :=
  _ ← check_fk db MUser (TranslatorSpeaks.user r);
  _ ← check_fk db MLanguage (TranslatorSpeaks.language r);
  let i := next_pk (translatorspeaks db) in
  Ok (i, {| users := users db;
            languages := languages db;
            conferences := conferences db;
            rooms := rooms db;
            talks := talks db;
            translations := translations db;
            translators := translators db;
            translatorspeaks := <[i := r]> (translatorspeaks db);
            booths := booths db;
            shifts := shifts db;
            shiftassignments := shiftassignments db |}).

Definition create_Booth (r : Booth.t) (db : DB) : result (pk * DB) :=
  _ ← check_fk db MRoom (Booth.room r);
  let i := next_pk (booths db) in
  Ok (i, {| users := users db;
            languages := languages db;
            conferences := conferences db;
            rooms := rooms db;
            talks := talks db;
            translations := translations db;
            translators := translators db;
            translatorspeaks := translatorspeaks db;
            booths := <[i := r]> (booths db);
            shifts := shifts db;
            shiftassignments := shiftassignments db |}).

Definition create_Shift (r : Shift.t) (db : DB) : result (pk * DB) :=
  _ ← check_fk db MBooth (Shift.booth r);
  _ ← check_fk db MTalk (Shift.talk r);
  _ ← check_fk_null db MLanguage (Shift.language r);
  let i := next_pk (shifts db) in
  Ok (i, {| users := users db;
            languages := languages db;
            conferences := conferences db;
            rooms := rooms db;
            talks := talks db;
            translations := translations db;
            translators := translators db;
            translatorspeaks := translatorspeaks db;
            booths := booths db;
            shifts := <[i := r]> (shifts db);
            shiftassignments := shiftassignments db |}).

Definition create_ShiftAssignment (r : ShiftAssignment.t) (db : DB)
    : result (pk * DB) :=
  _ ← check_fk db MShift (ShiftAssignment.shift r);
  _ ← check_fk db MUser (ShiftAssignment.user r);
  let i := next_pk (shiftassignments db) in
  Ok (i, {| users := users db;
            languages := languages db;
            conferences := conferences db;
            rooms := rooms db;
            talks := talks db;
            translations := translations db;
            translators := translators db;
            translatorspeaks := translatorspeaks db;
            booths := booths db;
            shifts := shifts db;
            shiftassignments := <[i := r]> (shiftassignments db) |}).

(** [ShiftAssignment(shift=..., user=...)] with the declared defaults:
    [waitlisted=True], [freeloaded=False] and a blank comment. *)
Definition ShiftAssignment_default (shift user : pk) : ShiftAssignment.t :=
  ShiftAssignment.mk shift user true false "".

(** ** Python values and attribute lookup *)

(** A model instance in memory: its primary key and its row. *)
Inductive instance :=
  | IUser (i : pk) (r : User.t)
  | ILanguage (i : pk) (r : Language.t)
  | IConference (i : pk) (r : Conference.t)
  | IRoom (i : pk) (r : Room.t)
  | ITalk (i : pk) (r : Talk.t)
  | ITranslation (i : pk) (r : Translation.t)
  | ITranslator (i : pk) (r : Translator.t)
  | ITranslatorSpeaks (i : pk) (r : TranslatorSpeaks.t)
  | IBooth (i : pk) (r : Booth.t)
  | IShift (i : pk) (r : Shift.t)
  | IShiftAssignment (i : pk) (r : ShiftAssignment.t).

(** The Python values the modelled code handles.  A [str] is kept as a
    string of 8-bit characters, [bytes] as a list of bytes. *)
Inductive value :=
  | VNone
  | VBool (b : bool)
  | VInt (z : Z)
  | VStr (s : string)
  | VBytes (b : list Byte.byte)
  | VInstance (o : instance).

(** The row an object names, loaded as an instance. *)
Definition get_instance (db : DB) (o : obj) : option instance :=
  match o.1 with
  | MUser => IUser o.2 <$> users db !! o.2
  | MLanguage => ILanguage o.2 <$> languages db !! o.2
  | MConference => IConference o.2 <$> conferences db !! o.2
  | MRoom => IRoom o.2 <$> rooms db !! o.2
  | MTalk => ITalk o.2 <$> talks db !! o.2
  | MTranslation => ITranslation o.2 <$> translations db !! o.2
  | MTranslator => ITranslator o.2 <$> translators db !! o.2
  | MTranslatorSpeaks => ITranslatorSpeaks o.2 <$> translatorspeaks db !! o.2
  | MBooth => IBooth o.2 <$> booths db !! o.2
  | MShift => IShift o.2 <$> shifts db !! o.2
  | MShiftAssignment => IShiftAssignment o.2 <$> shiftassignments db !! o.2
  end.

(** Reading a foreign-key attribute fetches the related row. *)
Definition fetch (db : DB) (m : model) (p : pk) : result value :=
  match get_instance db (m, p) with
  | Some o => Ok (VInstance o)
  | None => Raise DoesNotExist
  end.

(** A nullable foreign key reads as [None] when it is null. *)
Definition fetch_null (db : DB) (m : model) (p : option pk) : result value :=
  match p with
  | Some p => fetch db m p
  | None => Ok VNone
  end.

Definition VDateTime (d : datetime) : value := VStr d.

Definition VDateTime_null (d : option datetime) : value :=
  match d with
  | Some d => VDateTime d
  | None => VNone
  end.

Definition VKey (p : pk) : value := VInt (Z.pos p).

Definition VKey_null (p : option pk) : value :=
  match p with
  | Some p => VKey p
  | None => VNone
  end.

Fixpoint assoc {A} (k : string) (l : list (string * A)) : option A :=
  match l with
  | [] => None
  | (k', a) :: l' => if decide (k = k') then Some a else assoc k l'
  end.

(** The data attributes of an instance, by name: the fields the class
    declares, the primary key under its two names, and for every
    foreign key the raw column [<field>_id] next to the related object.
    The methods every model inherits from the framework ([save],
    [delete], ...) are not part of the model. *)
Definition instance_fields (db : DB) (self : instance)
    : list (string * result value) :=
  match self with
  | IUser i r =>
      [("id", Ok (VKey i)); ("pk", Ok (VKey i));
       ("username", Ok (VStr (User.username r)));
       ("email", Ok (VStr (User.email r)))]
  | ILanguage i r =>
      [("id", Ok (VKey i)); ("pk", Ok (VKey i));
       ("code", Ok (VStr (Language.code r)));
       ("name_en", Ok (VStr (Language.name_en r)));
       ("name_self", Ok (VStr (Language.name_self r)))]
  | IConference i r =>
      [("id", Ok (VKey i)); ("pk", Ok (VKey i));
       ("shortname", Ok (VStr (Conference.shortname r)));
       ("name", Ok (VStr (Conference.name r)));
       ("image_url", Ok (VStr (Conference.image_url r)));
       ("start", Ok (VDateTime_null (Conference.start r)));
       ("end", Ok (VDateTime_null (Conference.end_ r)));
       ("fahrplan_version", Ok (VStr (Conference.fahrplan_version r)))]
  | IRoom i r =>
      [("id", Ok (VKey i)); ("pk", Ok (VKey i));
       ("conference", fetch db MConference (Room.conference r));
       ("conference_id", Ok (VKey (Room.conference r)));
       ("name", Ok (VStr (Room.name r)))]
  | ITalk i r =>
      [("id", Ok (VKey i)); ("pk", Ok (VKey i));
       ("title", Ok (VStr (Talk.title r)));
       ("subtitle", Ok (VStr (Talk.subtitle r)));
       ("abstract", Ok (VStr (Talk.abstract r)));
       ("description", Ok (VStr (Talk.description r)));
       ("conference", fetch db MConference (Talk.conference r));
       ("conference_id", Ok (VKey (Talk.conference r)));
       ("fahrplan_id", Ok (VStr (Talk.fahrplan_id r)));
       ("fahrplan_guid", Ok (VStr (Talk.fahrplan_guid r)));
       ("logo_url", Ok (VStr (Talk.logo_url r)));
       ("talk_type", Ok (VStr (Talk.talk_type r)));
       ("speakers", Ok (VStr (Talk.speakers r)));
       ("language", fetch db MLanguage (Talk.language r));
       ("language_id", Ok (VKey (Talk.language r)));
       ("room", fetch db MRoom (Talk.room r));
       ("room_id", Ok (VKey (Talk.room r)));
       ("start", Ok (VDateTime (Talk.start r)));
       ("end", Ok (VDateTime (Talk.end_ r)))]
  | ITranslation i r =>
      [("id", Ok (VKey i)); ("pk", Ok (VKey i));
       ("title", Ok (VStr (Translation.title r)));
       ("subtitle", Ok (VStr (Translation.subtitle r)));
       ("abstract", Ok (VStr (Translation.abstract r)));
       ("description", Ok (VStr (Translation.description r)));
       ("author", fetch_null db MUser (Translation.author r));
       ("author_id", Ok (VKey_null (Translation.author r)));
       ("talk", fetch db MTalk (Translation.talk r));
       ("talk_id", Ok (VKey (Translation.talk r)));
       ("language", fetch db MLanguage (Translation.language r));
       ("language_id", Ok (VKey (Translation.language r)))]
  | ITranslator i r =>
      [("id", Ok (VKey i)); ("pk", Ok (VKey i));
       ("user", fetch db MUser (Translator.user r));
       ("user_id", Ok (VKey (Translator.user r)));
       ("confirmed", Ok (VBool (Translator.confirmed r)));
       ("bio", Ok (VStr (Translator.bio r)));
       ("contact_info", Ok (VStr (Translator.contact_info r)));
       ("secret_token", Ok (VStr (Translator.secret_token r)))]
  | ITranslatorSpeaks i r =>
      [("id", Ok (VKey i)); ("pk", Ok (VKey i));
       ("user", fetch db MUser (TranslatorSpeaks.user r));
       ("user_id", Ok (VKey (TranslatorSpeaks.user r)));
       ("language", fetch db MLanguage (TranslatorSpeaks.language r));
       ("language_id", Ok (VKey (TranslatorSpeaks.language r)))]
  | IBooth i r =>
      [("id", Ok (VKey i)); ("pk", Ok (VKey i));
       ("room", fetch db MRoom (Booth.room r));
       ("room_id", Ok (VKey (Booth.room r)));
       ("name", Ok (VStr (Booth.name r)));
       ("location", Ok (VStr (Booth.location r)));
       ("dect", Ok (VStr (Booth.dect r)));
       ("desired_occupancy", Ok (VInt (Z.of_N (Booth.desired_occupancy r))));
       ("maximum_occupancy", Ok (VInt (Z.of_N (Booth.maximum_occupancy r))))]
  | IShift i r =>
      [("id", Ok (VKey i)); ("pk", Ok (VKey i));
       ("booth", fetch db MBooth (Shift.booth r));
       ("booth_id", Ok (VKey (Shift.booth r)));
       ("talk", fetch db MTalk (Shift.talk r));
       ("talk_id", Ok (VKey (Shift.talk r)));
       ("language", fetch_null db MLanguage (Shift.language r));
       ("language_id", Ok (VKey_null (Shift.language r)))]
  | IShiftAssignment i r =>
      [("id", Ok (VKey i)); ("pk", Ok (VKey i));
       ("shift", fetch db MShift (ShiftAssignment.shift r));
       ("shift_id", Ok (VKey (ShiftAssignment.shift r)));
       ("user", fetch db MUser (ShiftAssignment.user r));
       ("user_id", Ok (VKey (ShiftAssignment.user r)));
       ("waitlisted", Ok (VBool (ShiftAssignment.waitlisted r)));
       ("freeloaded", Ok (VBool (ShiftAssignment.freeloaded r)));
       ("comment", Ok (VStr (ShiftAssignment.comment r)))]
  end.

(** [self.<name>] for a data attribute; a name the instance does not
    have raises [AttributeError]. *)
Definition instance_attr (db : DB) (self : instance) (name : string)
    : result value :=
  match assoc name (instance_fields db self) with
  | Some r => r
  | None => Raise AttributeError
  end.

(** [v.<name>] for a value that came out of another attribute: only
    instances carry data attributes. *)
Definition value_attr (db : DB) (v : value) (name : string) : result value :=
  match v with
  | VInstance o => instance_attr db o name
  | _ => Raise AttributeError
  end.

(** ** [Shift.language_or_any] *)

(** [self.language is not None]: identity with the [None] singleton. *)
Definition is_not_None (v : value) : bool :=
  match v with
  | VNone => false
  | _ => true
  end.

Definition Shift_language_or_any (db : DB) (i : pk) (self : Shift.t)
    : result value :=
  language ← instance_attr db (IShift i self) "language";
  if is_not_None language then
    instance_attr db (IShift i self) "language"
  else Ok (VStr "*").

(** ** [str.format] *)

(** The fragment of [str.format] that [models.py] uses: replacement
    fields [{}] (the positional arguments in turn) and [{name}] (a
    keyword argument), and the doubled braces that stand for a brace.
    Explicit indices, attribute and index access inside a field,
    conversions and format specifications are not modelled.  [to_str] is
    the conversion [format(v, '')] of an argument, which for the values
    at hand is [str(v)]. *)
Section format.
Context (to_str : value → result string).
Context (args : list value) (kwargs : list (string * value)).

(** The argument a replacement field names; [auto] counts the
    positional fields consumed so far. *)
Definition get_value (name : string) (auto : nat) : result (value * nat) :=
  if decide (name = "") then
    match args !! auto with
    | Some v => Ok (v, S auto)
    | None => Raise IndexError
    end
  else
    match assoc name kwargs with
    | Some v => Ok (v, auto)
    | None => Raise KeyError
    end.

(** The scan of the template; [field] holds the name read so far when
    the scan is inside a replacement field. *)
Fixpoint format_from (template : string) (field : option string)
    (auto : nat) (out : string) : result string :=
  match template with
  | EmptyString =>
      match field with
      | None => Ok out
      | Some _ => Raise ValueError
      end
  | String ch rest =>
      match field with
      | None =>
          if decide (ch = "{"%char) then
            match rest with
            | String "{"%char rest' =>
                format_from rest' None auto (out +:+ "{")
            | _ => format_from rest (Some "") auto out
            end
          else if decide (ch = "}"%char) then
            match rest with
            | String "}"%char rest' =>
                format_from rest' None auto (out +:+ "}")
            | _ => Raise ValueError
            end
          else format_from rest None auto (out +:+ String ch "")
      | Some name =>
          if decide (ch = "}"%char) then
            '(v, auto') ← get_value name auto;
            s ← to_str v;
            format_from rest None auto' (out +:+ s)
          else if decide (ch = "{"%char) then Raise ValueError
          else format_from rest (Some (name +:+ String ch "")) auto out
      end
  end.

Definition str_format (template : string) : result string :=
  format_from template None 0 "".
End format.

(** ** [str()] and the [__str__] methods *)

Global Instance byte_eq_dec : EqDecision Byte.byte := Byte.byte_eq_dec.

Definition hex_digit (n : N) : ascii :=
  match String.get (N.to_nat n) "0123456789abcdef" with
  | Some c => c
  | None => "0"%char
  end.

Definition hex_byte (b : Byte.byte) : string :=
  String (hex_digit (Byte.to_N b / 16))
         (String (hex_digit (Byte.to_N b mod 16)) "").

(** [repr] of a [bytes] object, which is also its [str]. *)
Definition bytes_repr (b : list Byte.byte) : string :=
  let quote :=
    if bool_decide (Byte.x27 ∈ b) && negb (bool_decide (Byte.x22 ∈ b))
    then Byte.x22 else Byte.x27 in
  let backslash := ascii_of_byte Byte.x5c in
  let escape (c : Byte.byte) : string :=
    if decide (c = quote ∨ c = Byte.x5c)
    then String backslash (String (ascii_of_byte c) "")
    else if decide (c = Byte.x09) then String backslash "t"
    else if decide (c = Byte.x0a) then String backslash "n"
    else if decide (c = Byte.x0d) then String backslash "r"
    else if decide (Byte.to_N c < 32 ∨ 127 ≤ Byte.to_N c)%N
    then String backslash ("x" +:+ hex_byte c)
    else String (ascii_of_byte c) "" in
  "b" +:+ String (ascii_of_byte quote)
    (foldr (λ c s, escape c +:+ s) (String (ascii_of_byte quote) "") b).

(** The [__str__] methods, each over [str], the conversion of the
    values it formats. *)
Section str_methods.
Context (str : value → result string) (db : DB).

Definition User_str (i : pk) (self : User.t) : result string :=
  Ok (User.username self).

Definition Language_str (i : pk) (self : Language.t) : result string :=
  Ok (Language.code self).

Definition Conference_str (i : pk) (self : Conference.t) : result string :=
  Ok (Conference.shortname self).

Definition Room_str (i : pk) (self : Room.t) : result string :=
  conf ← instance_attr db (IRoom i self) "conference";
  name ← instance_attr db (IRoom i self) "name";
  str_format str [] [("conf", conf); ("name", name)] "{conf}/{name}".

Definition Talk_str (i : pk) (self : Talk.t) : result string :=
  conf ← instance_attr db (ITalk i self) "conference";
  title ← instance_attr db (ITalk i self) "title";
  str_format str [] [("conf", conf); ("title", title)] "{conf}/{title}".

Definition Translation_str (i : pk) (self : Translation.t)
    : result string :=
  talk ← instance_attr db (ITranslation i self) "talk";
  language ← instance_attr db (ITranslation i self) "language";
  str_format str [] [("talk", talk); ("language", language)]
    "{talk} ({language})".

Definition Translator_str (i : pk) (self : Translator.t) : result string :=
  user ← instance_attr db (ITranslator i self) "user";
  str user.

Definition TranslatorSpeaks_str (i : pk) (self : TranslatorSpeaks.t)
    : result string :=
  translator ← instance_attr db (ITranslatorSpeaks i self) "user";
  language ← instance_attr db (ITranslatorSpeaks i self) "language";
  str_format str [] [("translator", translator); ("language", language)]
    "{translator}: {language}".

Definition Booth_str (i : pk) (self : Booth.t) : result string :=
  room ← instance_attr db (IBooth i self) "room";
  name ← instance_attr db (IBooth i self) "name";
  str_format str [] [("room", room); ("name", name)] "{room}/{name}".

Definition Shift_str (i : pk) (self : Shift.t) : result string :=
  talk ← instance_attr db (IShift i self) "talk";
  talk' ← instance_attr db (IShift i self) "talk";
  src ← value_attr db talk' "language";
  dst ← Shift_language_or_any db i self;
  str_format str [] [("talk", talk); ("src", src); ("dst", dst)]
    "{talk} ({src} -> {dst})".

Definition ShiftAssignment_str (i : pk) (self : ShiftAssignment.t)
    : result string :=
  user ← instance_attr db (IShiftAssignment i self) "user";
  shift ← instance_attr db (IShiftAssignment i self) "shift";
  talk ← value_attr db shift "talk";
  langfrom ← value_attr db talk "language";
  shift' ← instance_attr db (IShiftAssignment i self) "shift";
  langto ← value_attr db shift' "language";
  shift'' ← instance_attr db (IShiftAssignment i self) "shift";
  talk'' ← value_attr db shift'' "talk";
  str_format str []
    [("user", user); ("langfrom", langfrom); ("langto", langto);
     ("talk", talk'')]
    "{user} {langfrom} -> {langto} {talk}".

Definition instance_str (o : instance) : result string :=
  match o with
  | IUser i r => User_str i r
  | ILanguage i r => Language_str i r
  | IConference i r => Conference_str i r
  | IRoom i r => Room_str i r
  | ITalk i r => Talk_str i r
  | ITranslation i r => Translation_str i r
  | ITranslator i r => Translator_str i r
  | ITranslatorSpeaks i r => TranslatorSpeaks_str i r
  | IBooth i r => Booth_str i r
  | IShift i r => Shift_str i r
  | IShiftAssignment i r => ShiftAssignment_str i r
  end.
End str_methods.

(** [str(v)].  [depth] is the room left on the call stack, as in
    [collect]. *)
Fixpoint py_str (depth : nat) (db : DB) (v : value) : result string :=
  match depth with
  | O => Raise RecursionError
  | S d =>
      match v with
      | VNone => Ok "None"
      | VBool b => Ok (if b then "True" else "False")
      | VInt z => Ok (pretty z)
      | VStr s => Ok s
      | VBytes b => Ok (bytes_repr b)
      | VInstance o => instance_str (py_str d db) db o
      end
  end.

Definition str (db : DB) (v : value) : result string :=
  py_str recursion_limit db v.

(** ** [hashlib.md5] *)

(** MD5 as in RFC 1321, over 32-bit words kept as [Z] with the
    wrap-around written out. *)
Module MD5.
Local Open Scope Z_scope.

Definition wrap32 (x : Z) : Z := x mod 2 ^ 32.

Definition not32 (x : Z) : Z := Z.lxor x 0xffffffff.

Definition rotl32 (x c : Z) : Z :=
  wrap32 (Z.lor (Z.shiftl x c) (Z.shiftr x (32 - c))).

(** The per-round shift amounts. *)
Definition s : list Z :=
  [7; 12; 17; 22; 7; 12; 17; 22; 7; 12; 17; 22; 7; 12; 17; 22;
   5; 9; 14; 20; 5; 9; 14; 20; 5; 9; 14; 20; 5; 9; 14; 20;
   4; 11; 16; 23; 4; 11; 16; 23; 4; 11; 16; 23; 4; 11; 16; 23;
   6; 10; 15; 21; 6; 10; 15; 21; 6; 10; 15; 21; 6; 10; 15; 21].

(** [K[i] = floor(2^32 * abs(sin(i + 1)))]. *)
Definition K : list Z :=
  [0xd76aa478; 0xe8c7b756; 0x242070db; 0xc1bdceee;
   0xf57c0faf; 0x4787c62a; 0xa8304613; 0xfd469501;
   0x698098d8; 0x8b44f7af; 0xffff5bb1; 0x895cd7be;
   0x6b901122; 0xfd987193; 0xa679438e; 0x49b40821;
   0xf61e2562; 0xc040b340; 0x265e5a51; 0xe9b6c7aa;
   0xd62f105d; 0x02441453; 0xd8a1e681; 0xe7d3fbc8;
   0x21e1cde6; 0xc33707d6; 0xf4d50d87; 0x455a14ed;
   0xa9e3e905; 0xfcefa3f8; 0x676f02d9; 0x8d2a4c8a;
   0xfffa3942; 0x8771f681; 0x6d9d6122; 0xfde5380c;
   0xa4beea44; 0x4bdecfa9; 0xf6bb4b60; 0xbebfbc70;
   0x289b7ec6; 0xeaa127fa; 0xd4ef3085; 0x04881d05;
   0xd9d4d039; 0xe6db99e5; 0x1fa27cf8; 0xc4ac5665;
   0xf4292244; 0x432aff97; 0xab9423a7; 0xfc93a039;
   0x655b59c3; 0x8f0ccc92; 0xffeff47d; 0x85845dd1;
   0x6fa87e4f; 0xfe2ce6e0; 0xa3014314; 0x4e0811a1;
   0xf7537e82; 0xbd3af235; 0x2ad7d2bb; 0xeb86d391].

(** Little-endian bytes of a word and back. *)
Definition le_bytes (n : nat) (x : Z) : list Z :=
  (λ k, Z.land (Z.shiftr x (8 * Z.of_nat k)) 0xff) <$> seq 0 n.

Definition le_word (bs : list Z) : Z :=
  foldr (λ b acc, b + 256 * acc) 0 bs.

(** The message followed by the bit [1], zeros up to 56 modulo 64
    bytes, and the length in bits as 64 bits. *)
Definition pad (msg : list Z) : list Z :=
  let len := Z.of_nat (length msg) in
  msg ++ [0x80] ++ replicate (Z.to_nat ((55 - len) mod 64)) 0
      ++ le_bytes 8 ((8 * len) mod 2 ^ 64).

(** The sixteen words of a 64-byte block. *)
Definition words (block : list Z) : list Z :=
  (λ k, le_word (take 4 (drop (4 * k) block))) <$> seq 0 16.

Definition state : Type := Z * Z * Z * Z.

Definition init : state :=
  (0x67452301, 0xefcdab89, 0x98badcfe, 0x10325476).

Definition step (M : list Z) (st : state) (i : nat) : state :=
  let '(a, b, c, d) := st in
  let j := Z.of_nat i in
  let '(f, g) :=
    if j <? 16 then (Z.lor (Z.land b c) (Z.land (not32 b) d), j)
    else if j <? 32 then
      (Z.lor (Z.land d b) (Z.land (not32 d) c), (5 * j + 1) mod 16)
    else if j <? 48 then (Z.lxor (Z.lxor b c) d, (3 * j + 5) mod 16)
    else (Z.lxor c (Z.lor b (not32 d)), (7 * j) mod 16) in
  let f' := wrap32 (f + a + K !!! i + M !!! Z.to_nat g) in
  (d, wrap32 (b + rotl32 f' (s !!! i)), b, c).

Definition block (st : state) (bytes : list Z) : state :=
  let '(a0, b0, c0, d0) := st in
  let '(a, b, c, d) := foldl (step (words bytes)) st (seq 0 64) in
  (wrap32 (a0 + a), wrap32 (b0 + b), wrap32 (c0 + c), wrap32 (d0 + d)).

Fixpoint blocks (n : nat) (st : state) (bytes : list Z) : state :=
  match n with
  | O => st
  | S n' => blocks n' (block st (take 64 bytes)) (drop 64 bytes)
  end.

(** The 16-byte digest. *)
Definition digest (msg : list Byte.byte) : list Z :=
  let padded := pad ((λ b, Z.of_N (Byte.to_N b)) <$> msg) in
  let '(a, b, c, d) := blocks (length padded / 64)%nat init padded in
  le_bytes 4 a ++ le_bytes 4 b ++ le_bytes 4 c ++ le_bytes 4 d.

Definition hex (bs : list Z) : string :=
  foldr (λ b acc,
           String (hex_digit (Z.to_N (b / 16)))
             (String (hex_digit (Z.to_N (b mod 16))) acc)) "" bs.
End MD5.

(** A hash object: the bytes fed to it. *)
Record md5_hash := mk_md5_hash { md5_input : list Byte.byte }.

(** [hashlib.md5(data)]: the argument has to be bytes-like; a [str]
    (or any other value of this model) is refused with [TypeError]. *)
Definition hashlib_md5 (data : value) : result md5_hash :=
  match data with
  | VBytes b => Ok (mk_md5_hash b)
  | _ => Raise TypeError
  end.

Definition hexdigest (h : md5_hash) : string :=
  MD5.hex (MD5.digest (md5_input h)).

(** [s.encode()]: the bytes of a string. *)
Definition encode (s : string) : list Byte.byte :=
  byte_of_ascii <$> list_ascii_of_string s.

(** ** [str.lower] *)

(** Lower-casing of the ASCII letters; other characters stay. *)
Definition lower_ascii (c : ascii) : ascii :=
  let n := N_of_ascii c in
  if ((65 <=? n) && (n <=? 90))%N then ascii_of_N (n + 32) else c.

Fixpoint lower (s : string) : string :=
  match s with
  | EmptyString => EmptyString
  | String c s' => String (lower_ascii c) (lower s')
  end.

(** [v.lower()]: a method of [str] only. *)
Definition str_lower (v : value) : result value :=
  match v with
  | VStr s => Ok (VStr (lower s))
  | _ => Raise AttributeError
  end.

(** ** [Translator.avatar_url] *)

Definition Translator_avatar_url (db : DB) (i : pk) (self : Translator.t)
    : result value :=
  user ← instance_attr db (ITranslator i self) "user";
  email ← value_attr db user "email";
  lowered ← str_lower email;
  h ← hashlib_md5 lowered;
  url ← str_format (str db) [VStr (hexdigest h)] []
          "https://www.gravatar.com/avatar/{}";
  Ok (VStr url).

(** ** [Talk.slug], [Talk.watch_url], [Talk.slides_url] *)

(** The module's global namespace as far as plain calls go: the
    callable a free name is bound to, if any.  A free name that is not
    bound raises [NameError] when it is loaded. *)
Definition namespace : Type := string → option (list value → result value).

Definition load_global (globals : namespace) (name : string)
    : result (list value → result value) :=
  match globals name with
  | Some f => Ok f
  | None => Raise NameError
  end.

(** The names [models.py] binds at module level: its imports and its
    classes. *)
Definition module_names : list string :=
  ["models"; "User"; "get_random_string"; "hashlib";
   "Language"; "Conference"; "Room"; "TalkBaseModel"; "Talk";
   "Translation"; "Translator"; "TranslatorSpeaks"; "Booth"; "Shift";
   "ShiftAssignment"].

(** A namespace of [models.py] binds nothing but these names. *)
Definition models_namespace (globals : namespace) : Prop :=
  ∀ name, is_Some (globals name) → name ∈ module_names.

Section Talk_properties.
Context (globals : namespace) (db : DB).

(** The keyword arguments are evaluated left to right, the callee of
    a call before its arguments. *)
Definition Talk_slug (i : pk) (self : Talk.t) : result value :=
  conference ← instance_attr db (ITalk i self) "conference";
  conference_name ← value_attr db conference "acronym";
  fahrplan_id ← instance_attr db (ITalk i self) "fahrplan_id";
  parametrize ← load_global globals "parametrize";
  name_arg ← instance_attr db (ITalk i self) "name";
  name ← parametrize [name_arg];
  slug ← str_format (str db) []
           [("conference_name", conference_name);
            ("fahrplan_id", fahrplan_id); ("name", name)]
           "{conference_name}-{fahrplan_id}-{name}";
  Ok (VStr slug).

Definition Talk_watch_url (i : pk) (self : Talk.t) : result value :=
  slug ← Talk_slug i self;
  url ← str_format (str db) [] [("slug", slug)]
          "https://media.ccc.de/v/{slug}";
  Ok (VStr url).

Definition Talk_slides_url (i : pk) (self : Talk.t) : result value :=
  guid ← instance_attr db (ITalk i self) "guid";
  url ← str_format (str db) [guid] []
          "https://speakers.c3lingo.org/talks/{guid}/";
  Ok (VStr url).

(** [getattr(self, name)]: the properties of the class come before
    the data attributes of the instance. *)
Definition getattr (self : instance) (name : string) : result value :=
  match self with
  | ITalk i r =>
      if decide (name = "slug") then Talk_slug i r
      else if decide (name = "watch_url") then Talk_watch_url i r
      else if decide (name = "slides_url") then Talk_slides_url i r
      else instance_attr db self name
  | ITranslator i r =>
      if decide (name = "avatar_url") then Translator_avatar_url db i r
      else instance_attr db self name
  | IShift i r =>
      if decide (name = "language_or_any") then Shift_language_or_any db i r
      else instance_attr db self name
  | _ => instance_attr db self name
  end.
End Talk_properties.

(** ** [get_random_string] and the default of [Translator.secret_token] *)

(** The source of randomness: an unbounded supply of draws and the
    position of the next one. *)
Record Rng := mkRng {
  entropy : nat → nat;
  cursor : nat;
}.

(** [randbelow(n)]: the next draw, brought below [n]. *)
Definition randbelow (n : nat) (g : Rng) : nat * Rng :=
  (entropy g (cursor g) mod n, mkRng (entropy g) (S (cursor g))).

(** [random.choice(seq)]; an empty sequence raises [IndexError]. *)
Definition choice (seq : string) (g : Rng) : result ascii * Rng :=
  match seq with
  | EmptyString => (Raise IndexError, g)
  | _ =>
      let '(k, g') := randbelow (String.length seq) g in
      match String.get k seq with
      | Some c => (Ok c, g')
      | None => (Raise IndexError, g')
      end
  end.

Definition allowed_chars : string :=
  "abcdefghijklmnopqrstuvwxyzABCDEFGHIJKLMNOPQRSTUVWXYZ0123456789".

(** [''.join(random.choice(allowed_chars) for i in range(length))]. *)
Fixpoint get_random_string_from (chars : string) (length : nat) (g : Rng)
    : result string * Rng :=
  match length with
  | O => (Ok "", g)
  | S n =>
      match choice chars g with
      | (Ok c, g') =>
          match get_random_string_from chars n g' with
          | (Ok s, g'') => (Ok (String c s), g'')
          | (Raise e, g'') => (Raise e, g'')
          end
      | (Raise e, g') => (Raise e, g')
      end
  end.

Definition get_random_string (length : nat) (g : Rng) : result string * Rng :=
  get_random_string_from allowed_chars length g.

(** [Translator.objects.create(user=..., confirmed=..., bio=...,
    contact_info=...)]: building the instance calls the default of
    [secret_token], [lambda: get_random_string(64)], and saving it
    inserts the row. *)
Definition create_Translator (user : pk) (confirmed : bool)
    (bio contact_info : string) (g : Rng) (db : DB)
    : result (pk * DB) * Rng :=
  match get_random_string 64 g with
  | (Ok secret_token, g') =>
      (insert_Translator
         (Translator.mk user confirmed bio contact_info secret_token) db, g')
  | (Raise e, g') => (Raise e, g')
  end.

(** [instance.delete()] as the caller sees the database afterwards: a
    deletion that raises has changed nothing, since the collector
    raises before the first row is touched. *)
Definition exec_delete (db : DB) (o : obj) : DB * option exn :=
  match delete db o with
  | Ok db' => (db', None)
  | Raise e => (db, Some e)
  end.

(** Deleting several objects one after the other. *)
Definition delete_all (db : DB) (l : list obj) : result DB :=
  foldM delete db l.

(** ** What a deletion is to do, as relations on the database *)

(** Row [i] of the table that declares [f] holds the key [p] in [f]. *)
Definition references (db : DB) (f : fk) (i p : pk) : Prop :=
  fk_column db f !! i = Some (Some p).

(** [o'] references [o] through a field whose policy is [CASCADE]. *)
Definition cascade_edge (db : DB) (o o' : obj) : Prop :=
  ∃ f, fk_to f = o.1 ∧ fk_model f = o'.1 ∧ on_delete f = CASCADE ∧
       references db f o'.2 o.2.

(** The objects a deletion of [o] takes along. *)
Inductive reach (db : DB) : obj → obj → Prop :=
  | reach_refl o : reach db o o
  | reach_step o o' o'' :
      cascade_edge db o o' → reach db o' o'' → reach db o o''.

(** Some row references [o] through a field whose policy is [PROTECT]. *)
Definition protected (db : DB) (o : obj) : Prop :=
  ∃ f i, fk_to f = o.1 ∧ on_delete f = PROTECT ∧ references db f i o.2.

(** The field update [u] is due when [o] goes: row [u.2] references [o]
    through the field [u.1], whose policy is [SET_NULL]. *)
Definition nulled (db : DB) (o : obj) (u : fk * pk) : Prop :=
  fk_to u.1 = o.1 ∧ on_delete u.1 = SET_NULL ∧ references db u.1 u.2 o.2.

(** Nothing that goes with [o] is protected. *)
Definition deletable (db : DB) (o : obj) : Prop :=
  ∀ x, reach db o x → ¬ protected db x.

(** The length of the longest chain of references that ends in a model. *)
Definition rank (m : model) : nat :=
  match m with
  | MTranslation | MTranslator | MTranslatorSpeaks | MShiftAssignment => 0
  | MUser | MShift => 1
  | MTalk | MBooth => 2
  | MRoom | MLanguage => 3
  | MConference => 4
  end.

(** Every foreign key of the database points to an existing row. *)
Definition referential_integrity (db : DB) : Prop :=
  ∀ f i p, references db f i p → exists_obj db (fk_to f, p).

(** The column of [f] after a deletion that gathered [c]. *)
Definition column_after (c : Collector) (db : DB) (f : fk) (i : pk)
    : option (option pk) :=
  if decide ((fk_model f, i) ∈ data c) then None
  else if decide ((f, i) ∈ field_updates c)
       then (λ _, None) <$> fk_column db f !! i
       else fk_column db f !! i.

(** ** Specification vocabulary for the collector *)

(** The collector [c'] is [c] with the objects [D] and the field
    updates [U] added. *)
Definition extends (D : obj → Prop) (U : fk * pk → Prop)
    (c c' : Collector) : Prop :=
  (∀ x, x ∈ data c' ↔ x ∈ data c ∨ D x) ∧
  (∀ u, u ∈ field_updates c' ↔ u ∈ field_updates c ∨ U u).

(** The field updates due when [o] and all it takes along go. *)
Definition reach_nulled (db : DB) (o : obj) (u : fk * pk) : Prop :=
  ∃ x, reach db o x ∧ nulled db x u.

(** What the related field [f] of [o] adds to the objects to delete. *)
Definition field_data (db : DB) (o : obj) (f : fk) (x : obj) : Prop :=
  fk_to f = o.1 ∧ on_delete f = CASCADE ∧
  ∃ s, references db f s o.2 ∧ reach db (fk_model f, s) x.

(** What the related field [f] of [o] adds to the field updates. *)
Definition field_nulled (db : DB) (o : obj) (f : fk) (u : fk * pk) : Prop :=
  fk_to f = o.1 ∧
  ((on_delete f = SET_NULL ∧ u.1 = f ∧ references db f u.2 o.2) ∨
   (on_delete f = CASCADE ∧
    ∃ s, references db f s o.2 ∧ reach_nulled db (fk_model f, s) u)).

(** The related field [f] of [o] does not stand in the way. *)
Definition field_safe (db : DB) (o : obj) (f : fk) : Prop :=
  fk_to f = o.1 →
  (on_delete f = PROTECT → ∀ i, ¬ references db f i o.2) ∧
  (on_delete f = CASCADE →
   ∀ s, references db f s o.2 → deletable db (fk_model f, s)).

(** No protecting field points to these models. *)
Definition unprotected (m : model) : Prop :=
  ∀ f, fk_to f = m → on_delete f ≠ PROTECT.

(** ** Sample databases

    One row of every kind but translators. *)
Definition db_shift : DB :=
  {| users := {[ 1%positive := User.mk "alice" "Alice@Example.org" ]};
     languages := {[ 1%positive := Language.mk "de" "German" "Deutsch" ]};
     conferences :=
       {[ 1%positive := Conference.mk "36c3" "36C3" "" None None "" ]};
     rooms := {[ 1%positive := Room.mk 1 "Ada" ]};
     talks :=
       {[ 1%positive :=
            Talk.mk "Opening" "" "" "" 1 "11223" "guid" "" "" "" 1 1
                    "2019-12-27 11:00" "2019-12-27 11:30" ]};
     translations :=
       {[ 1%positive := Translation.mk "Eroeffnung" "" "" "" (Some 1%positive) 1 1 ]};
     translators := ∅;
     translatorspeaks := ∅;
     booths := {[ 1%positive := Booth.mk 1 "Ada 1" "" "" 2 3 ]};
     shifts := {[ 1%positive := Shift.mk 1 1 None ]};
     shiftassignments := {[ 1%positive := ShiftAssignment_default 1 1 ]} |}.

(** A conference with one room of its own and a talk of the conference
    that is held in a room of another conference. *)
Definition db_guest_room : DB :=
  {| users := ∅;
     languages := {[ 1%positive := Language.mk "de" "German" "Deutsch" ]};
     conferences :=
       {[ 1%positive := Conference.mk "36c3" "36C3" "" None None "";
          2%positive := Conference.mk "camp" "Camp" "" None None "" ]};
     rooms := {[ 1%positive := Room.mk 1 "Ada"; 2%positive := Room.mk 2 "Tent" ]};
     talks :=
       {[ 1%positive :=
            Talk.mk "Opening" "" "" "" 1 "11223" "guid" "" "" "" 1 2
                    "2019-12-27 11:00" "2019-12-27 11:30" ]};
     translations := ∅;
     translators := ∅;
     translatorspeaks := ∅;
     booths := ∅;
     shifts := ∅;
     shiftassignments := ∅ |}.

(** The rooms of conference [c]. *)
Definition room_objs (db : DB) (c : positive) : list obj :=
  (λ r, (MRoom, r)) <$> related_objects db Room_conference c.

(** A conference with one room and no talk. *)
Definition db_one_room : DB :=
  {| users := ∅;
     languages := ∅;
     conferences :=
       {[ 1%positive := Conference.mk "36c3" "36C3" "" None None "" ]};
     rooms := {[ 1%positive := Room.mk 1 "Ada" ]};
     talks := ∅;
     translations := ∅;
     translators := ∅;
     translatorspeaks := ∅;
     booths := ∅;
     shifts := ∅;
     shiftassignments := ∅ |}.

(** The translator of user 1. *)
Definition alice : Translator.t := Translator.mk 1 true "" "" "".

(** The URL the docstring of [avatar_url] describes: the Gravatar URL
    of the MD5 digest of the lowercased email. *)
Definition gravatar_url (email : string) : string :=
  "https://www.gravatar.com/avatar/" +:+
  hexdigest (mk_md5_hash (encode (lower email))).

Ltac solve_exists_obj :=
  unfold exists_obj; simpl; apply elem_of_dom; eauto.

(** The character the [k]-th draw of [e] picks out of [chars]. *)
Definition draw_char (chars : string) (e : nat → nat) (k : nat) : ascii :=
  default "000"%char (String.get (e k `mod` String.length chars) chars).

(** The string of the [n] draws from position [pos] on. *)
Fixpoint string_of_draws (chars : string) (e : nat → nat) (pos n : nat)
    : string :=
  match n with
  | O => ""
  | S n' => String (draw_char chars e pos) (string_of_draws chars e (S pos) n')
  end.

Definition opening : Talk.t :=
  Talk.mk "Opening" "" "" "" 1 "11223" "guid" "" "" "" 1 1
          "2019-12-27 11:00" "2019-12-27 11:30".

Definition closing : Talk.t :=
  Talk.mk "Closing" "" "" "" 1 "11224" "guid2" "" "" "" 1 1
          "2019-12-30 18:00" "2019-12-30 18:30".

Definition eroeffnung : Translation.t :=
  Translation.mk "Eroeffnung" "" "" "" None 1 1.

Definition db_two_users : DB :=
  {| users := {[ 1%positive := User.mk "alice" "Alice@Example.org";
                 2%positive := User.mk "bob" "bob@example.org" ]};
     languages := {[ 1%positive := Language.mk "de" "German" "Deutsch" ]};
     conferences :=
       {[ 1%positive := Conference.mk "36c3" "36C3" "" None None "" ]};
     rooms := {[ 1%positive := Room.mk 1 "Ada" ]};
     talks := {[ 1%positive := opening ]};
     translations := ∅;
     translators := ∅;
     translatorspeaks := ∅;
     booths := ∅;
     shifts := ∅;
     shiftassignments := ∅ |}.

(** A generator whose draws are 0, 1, 2, ... *)
Definition counting : Rng := mkRng (λ k, k) 0.

(** The token a creation stores when the generator stands at [g]. *)
Definition token_at (g : Rng) : string :=
  string_of_draws allowed_chars (entropy g) (cursor g) 64.

(** The generator after [n] draws. *)
Definition advance (n : nat) (g : Rng) : Rng :=
  mkRng (entropy g) (cursor g + n).

(** ** The space of draws *)

(** All the runs of [n] draws: the lists of [n] numbers below the size
    of the alphabet, each as likely as any other. *)
Fixpoint draws_space (n : nat) : list (list nat) :=
  match n with
  | O => [[]]
  | S n' =>
      x ← seq 0 (String.length allowed_chars);
      cons x <$> draws_space n'
  end.

(** A generator that hands out the draws of [l], then zeros. *)
Definition rng_of (l : list nat) : Rng := mkRng (λ k, nth k l 0) 0.

(** The tokens of two Translators created one after the other, for the
    users [u1] and [u2], as they stand in the database afterwards;
    [None] if a creation fails. *)
Definition two_tokens (db : DB) (u1 u2 : positive) (g : Rng)
    : option (string * string) :=
  match create_Translator u1 false "" "" g db with
  | (Ok (i1, db1), g1) =>
      match create_Translator u2 false "" "" g1 db1 with
      | (Ok (i2, db2), _) =>
          t1 ← Translator.secret_token <$> translators db2 !! i1;
          t2 ← Translator.secret_token <$> translators db2 !! i2;
          Some (t1, t2)
      | (Raise _, _) => None
      end
  | (Raise _, _) => None
  end.

(** The two tokens are the same string. *)
Definition tokens_collide (db : DB) (u1 u2 : positive) (l : list nat)
    : Prop :=
  ∃ t, two_tokens db u1 u2 (rng_of l) = Some (t, t).

Global Instance tokens_collide_dec db u1 u2 l :
  Decision (tokens_collide db u1 u2 l).
Proof.
  unfold tokens_collide.
  destruct (two_tokens db u1 u2 (rng_of l)) as [[t1 t2]|].
  - destruct (decide (t1 = t2)) as [->|Hne].
    + left. by exists t2.
    + right. intros (t & [= -> ->]). done.
  - right. by intros (t & ?).
Defined.

(** The models that no protecting field points to. *)
Definition unprotected_models : list model :=
  [MUser; MTalk; MTranslation; MTranslator; MTranslatorSpeaks; MShift;
   MShiftAssignment].

#[local] Set Warnings "-clear-no-such-hyp".

(** ** The error monad *)

Lemma bind_Ok {A B} (f : A → result B) (r : result A) (b : B) :
  r ≫= f = Ok b ↔ ∃ a, r = Ok a ∧ f a = Ok b.
Proof.
  destruct r as [a|e]; simpl; split.
  - eauto.
  - by intros (a' & [= <-] & ?).
  - done.
  - by intros (? & ? & ?).
Qed.

Lemma foldM_app {A B} (f : A → B → result A) a l1 l2 :
  foldM f a (l1 ++ l2) = foldM f a l1 ≫= λ a', foldM f a' l2.
Proof.
  revert a. induction l1 as [|x l1 IH]; intros a; simpl; [done|].
  destruct (f a x); simpl; [apply IH|done].
Qed.

Lemma foldM_is_Ok {A B} (f : A → B → result A) a l :
  (∀ a b, b ∈ l → is_Ok (f a b)) → is_Ok (foldM f a l).
Proof.
  revert a. induction l as [|x l IH]; intros a H; simpl.
  - by exists a.
  - destruct (H a x) as [a' ->]; [left|].
    apply IH. intros a'' b Hb. apply H. by right.
Qed.

Lemma foldM_Raise {A B} (f : A → B → result A) a l e :
  foldM f a l = Raise e → ∃ a' b, b ∈ l ∧ f a' b = Raise e.
Proof.
  revert a. induction l as [|x l IH]; intros a; simpl; [done|].
  destruct (f a x) as [a'|e'] eqn:E.
  - intros (a'' & b & Hb & Hf)%IH. exists a'', b. split; [by right|done].
  - intros [= ->]. exists a, x. split; [left|done].
Qed.

(** ** Related objects *)

Lemma elem_of_related_objects db f p i :
  i ∈ related_objects db f p ↔ references db f i p.
Proof.
  unfold related_objects, references. rewrite list_elem_of_fmap. split.
  - intros ([k v] & -> & H). apply elem_of_map_to_list in H.
    apply map_lookup_filter_Some in H as [H1 H2]. simpl in *. by subst.
  - intros H. exists (i, Some p). split; [done|].
    apply elem_of_map_to_list, map_lookup_filter_Some. done.
Qed.

Lemma related_objects_nil db f p :
  related_objects db f p = [] ↔ ∀ i, ¬ references db f i p.
Proof.
  split.
  - intros E i Hi%elem_of_related_objects. rewrite E in Hi.
    by apply not_elem_of_nil in Hi.
  - intros H. destruct (related_objects db f p) as [|i l] eqn:E; [done|].
    destruct (H i). apply elem_of_related_objects. rewrite E. left.
Qed.

(** ** Collector bookkeeping *)

Lemma extends_refl D U c :
  (∀ x, ¬ D x) → (∀ u, ¬ U u) → extends D U c c.
Proof.
  intros HD HU. split; intros x; (split; [by left|]).
  - intros [?|?%HD]; done.
  - intros [?|?%HU]; done.
Qed.

Lemma foldM_extends {B} (g : Collector → B → result Collector)
    (D : B → obj → Prop) (U : B → fk * pk → Prop) (Q : B → Prop) l :
  (∀ c b c', b ∈ l → g c b = Ok c' → extends (D b) (U b) c c' ∧ Q b) →
  ∀ c c', foldM g c l = Ok c' →
    extends (λ x, ∃ b, b ∈ l ∧ D b x) (λ u, ∃ b, b ∈ l ∧ U b u) c c' ∧
    ∀ b, b ∈ l → Q b.
Proof.
  induction l as [|b l IH]; intros Hg c c'; simpl.
  - intros [= <-]. split.
    + apply extends_refl; intros ? (? & []%not_elem_of_nil & _).
    + by intros ? ?%not_elem_of_nil.
  - destruct (g c b) as [c1|] eqn:E; [|done]. intros Hf.
    destruct (Hg c b c1) as [[Hd Hu] Hq]; [left|done|].
    destruct (IH (λ c b c' Hb, Hg c b c' (list_elem_of_further _ _ _ Hb))
                 c1 c' Hf) as [[Hd' Hu'] Hq'].
    split; [split|].
    + intros x. rewrite Hd', Hd. split.
      * intros [[?|?]|(b' & ? & ?)]; [by left|right..].
        -- exists b. split; [left|done].
        -- exists b'. split; [by right|done].
      * intros [?|(b' & [->|?]%elem_of_cons & ?)]; [by left; left|by left; right|].
        right. by exists b'.
    + intros x. rewrite Hu', Hu. split.
      * intros [[?|?]|(b' & ? & ?)]; [by left|right..].
        -- exists b. split; [left|done].
        -- exists b'. split; [by right|done].
      * intros [?|(b' & [->|?]%elem_of_cons & ?)]; [by left; left|by left; right|].
        right. by exists b'.
    + intros b' [->|?]%elem_of_cons; [done|by apply Hq'].
Qed.

Lemma reach_inv db o x :
  reach db o x ↔ x = o ∨ ∃ f, field_data db o f x.
Proof.
  split.
  - intros [o0|o0 [m' s] o'' (f & Hto & Hm & Hc & Hr) H]; [by left|right].
    simpl in *. subst m'. exists f. repeat split; [done..|]. by exists s.
  - intros [->|(f & Hto & Hc & s & Hr & H)]; [constructor|].
    eapply reach_step; [|exact H]. by exists f.
Qed.

Lemma reach_nulled_inv db o u :
  reach_nulled db o u ↔ nulled db o u ∨
    ∃ f, fk_to f = o.1 ∧ on_delete f = CASCADE ∧
         ∃ s, references db f s o.2 ∧ reach_nulled db (fk_model f, s) u.
Proof.
  unfold reach_nulled. split.
  - intros (x & [->|(f & Hto & Hc & s & Hr & H)]%reach_inv & Hn); [by left|].
    right. exists f. repeat split; [done..|]. exists s. split; [done|]. by exists x.
  - intros [Hn|(f & Hto & Hc & s & Hr & x & H & Hn)].
    + exists o. split; [constructor|done].
    + exists x. split; [|done]. apply reach_inv. right. exists f.
      repeat split; [done..|]. by exists s.
Qed.

Section collect_field.
Context (rec : Collector → obj → result Collector) (db : DB).
Context (Hrec : ∀ c o c', rec c o = Ok c' →
           extends (reach db o) (reach_nulled db o) c c' ∧ deletable db o).

Lemma collect_field_spec o c f c' :
  collect_field rec db o c f = Ok c' →
  extends (field_data db o f) (field_nulled db o f) c c' ∧
  field_safe db o f.
Proof.
  unfold collect_field. case_decide as Hto.
  2:{ intros [= <-]. split; [|by intros ?].
      apply extends_refl; [by intros ? (? & _)|by intros ? (? & _)]. }
  case_decide as Hnil.
  { intros [= <-]. pose proof (proj1 (related_objects_nil _ _ _) Hnil) as Hno.
    split.
    - apply extends_refl.
      + intros x (_ & _ & s & Hr & _). by apply (Hno s).
      + intros u (_ & [(_ & _ & Hr)|(_ & s & Hr & _)]); by eapply Hno.
    - intros _. split; [done|]. intros _ s Hr. by destruct (Hno s). }
  destruct (on_delete f) eqn:Hpol; [|done|].
  - intros Hf.
    destruct (foldM_extends (λ c s, rec c (fk_model f, s))
      (λ s, reach db (fk_model f, s)) (λ s, reach_nulled db (fk_model f, s))
      (λ s, deletable db (fk_model f, s)) (related_objects db f o.2)
      (λ c b c' _ H, Hrec c _ c' H) c c' Hf) as [[Hd Hu] Hq].
    split; [split|].
    + intros x. rewrite Hd. unfold field_data.
      setoid_rewrite elem_of_related_objects. split.
      * intros [?|(s & ? & ?)]; [by left|]. right. repeat split; [done..|].
        by exists s.
      * intros [?|(_ & _ & s & ? & ?)]; [by left|]. right. by exists s.
    + intros u. rewrite Hu. unfold field_nulled.
      setoid_rewrite elem_of_related_objects. split.
      * intros [?|(s & ? & ?)]; [by left|]. right. split; [done|]. right.
        split; [done|]. by exists s.
      * intros [?|(_ & [(? & _)|(_ & s & ? & ?)])]; [by left|congruence|].
        right. by exists s.
    + intros _. split; [congruence|]. intros _ s Hr. apply Hq.
      by apply elem_of_related_objects.
  - intros [= <-]. split; [split|].
    + intros x. unfold field_data. split; [by left|].
      intros [?|(_ & ? & _)]; [done|congruence].
    + intros [f' i]. unfold add_field_update, field_nulled. simpl.
      rewrite elem_of_union, elem_of_list_to_set, list_elem_of_fmap.
      setoid_rewrite elem_of_related_objects. split.
      * intros [(s & [= -> ->] & Hr)|?]; [right|by left]. split; [done|].
        by left.
      * intros [?|(_ & [(_ & -> & Hr)|(? & _)])]; [by right| |congruence].
        left. by exists i.
    + intros _. split; congruence.
Qed.
End collect_field.

Lemma elem_of_all_fks f : f ∈ all_fks.
Proof. destruct f; apply (bool_decide_unpack _); reflexivity. Qed.

(** ** The collector is sound

    What a successful collection adds to the collector is the cascade
    closure of the object and the field updates due along it, and
    nothing in that closure is protected. *)
Theorem collect_spec d db c o c' :
  collect d db c o = Ok c' →
  extends (reach db o) (reach_nulled db o) c c' ∧ deletable db o.
Proof.
  revert c o c'. induction d as [|d IH]; intros c o c'; simpl; [done|].
  intros H.
  destruct (foldM_extends (collect_field (collect d db) db o)
    (field_data db o) (field_nulled db o) (field_safe db o) all_fks
    (λ c f c' _ Hf, collect_field_spec _ db IH o c f c' Hf) _ _ H)
    as [[Hd Hu] Hq].
  split; [split|].
  - intros x. rewrite Hd, reach_inv. simpl. rewrite elem_of_union, elem_of_singleton.
    split.
    + intros [[?|?]|(f & _ & ?)];
        [by right; left|by left|right; right; by exists f].
    + intros [?|[?|(f & ?)]]; [by left; right|by left; left|].
      right. exists f. split; [apply elem_of_all_fks|done].
  - intros u. rewrite Hu, reach_nulled_inv. simpl. split.
    + intros [?|(f & _ & Hto & [(Hpol & <- & Hr)|(Hpol & s & Hr & Hn)])];
        [by left|right; by left|].
      right. right. exists f. repeat split; [done..|]. by exists s.
    + intros [?|[(Hto & Hpol & Hr)|(f & Hto & Hpol & s & Hr & Hn)]]; [by left|..].
      * right. exists u.1. split; [apply elem_of_all_fks|]. split; [done|].
        by left.
      * right. exists f. split; [apply elem_of_all_fks|]. split; [done|].
        right. split; [done|]. by exists s.
  - intros x [->|(f & Hto & Hpol & s & Hr & Hx)]%reach_inv.
    + intros (f & i & Hto & Hpol & Hr).
      destruct (Hq f (elem_of_all_fks f) Hto) as [Hp _]. by apply (Hp Hpol i).
    + destruct (Hq f (elem_of_all_fks f) Hto) as [_ Hc]. by apply (Hc Hpol s).
Qed.

(** ** The collector terminates within the recursion limit *)

Lemma rank_edge f : rank (fk_model f) < rank (fk_to f).
Proof. destruct f; simpl; lia. Qed.

Lemma rank_limit m : rank m < recursion_limit.
Proof. destruct m; vm_compute; lia. Qed.

Lemma reach_edge db o f s x :
  fk_to f = o.1 → on_delete f = CASCADE → references db f s o.2 →
  reach db (fk_model f, s) x → reach db o x.
Proof.
  intros Hto Hpol Hr Hx. eapply reach_step; [|exact Hx]. by exists f.
Qed.

Lemma collect_S d db c o :
  collect (S d) db c o =
  foldM (collect_field (collect d db) db o) (add o c) all_fks.
Proof. reflexivity. Qed.

Lemma collect_Raise d db c o e :
  rank o.1 < d → collect d db c o = Raise e → e = ProtectedError.
Proof.
  revert c o. induction d as [|d IH]; intros c o Hd; [lia|].
  rewrite collect_S.
  intros (c' & f & _ & Hf)%foldM_Raise. revert Hf.
  unfold collect_field. case_decide as Hto; [|done].
  case_decide as Hnil; [done|].
  destruct (on_delete f) eqn:Hpol; [|congruence|done].
  intros (c'' & s & _ & Hs)%foldM_Raise. eapply IH; [|exact Hs]. simpl.
  pose proof (rank_edge f). rewrite Hto in *. lia.
Qed.

Lemma collect_is_Ok d db c o :
  rank o.1 < d → deletable db o → is_Ok (collect d db c o).
Proof.
  revert c o. induction d as [|d IH]; intros c o Hd Hsafe; [lia|].
  rewrite collect_S. apply foldM_is_Ok. intros c' f _. unfold collect_field.
  case_decide as Hto; [|by eexists]. case_decide as Hnil; [by eexists|].
  destruct (on_delete f) eqn:Hpol.
  - apply foldM_is_Ok. intros c'' s Hs%elem_of_related_objects. apply IH.
    + simpl. pose proof (rank_edge f). rewrite Hto in *. lia.
    + intros x Hx. apply Hsafe. by eapply reach_edge.
  - destruct (related_objects db f o.2) as [|i l] eqn:E; [done|].
    destruct (Hsafe o (reach_refl _ _)). exists f, i. repeat split; [done..|].
    apply elem_of_related_objects. rewrite E. left.
  - by eexists.
Qed.

Lemma collect_protected d db c o x :
  rank o.1 < d → reach db o x → protected db x →
  collect d db c o = Raise ProtectedError.
Proof.
  intros Hd Hx Hp. destruct (collect d db c o) as [c'|e] eqn:E.
  - apply collect_spec in E as [_ Hsafe]. by destruct (Hsafe x Hx).
  - by rewrite (collect_Raise _ _ _ _ _ Hd E).
Qed.

(** ** Deletion *)

Lemma delete_inv db o db' :
  delete db o = Ok db' →
  ∃ c, db' = purge c db ∧ deletable db o ∧
       (∀ x, x ∈ data c ↔ reach db o x) ∧
       (∀ u, u ∈ field_updates c ↔ reach_nulled db o u).
Proof.
  unfold delete. intros (c & Hc & [= <-])%bind_Ok. exists c.
  apply collect_spec in Hc as [[Hd Hu] Hsafe]. repeat split; [done|..].
  - intros Hx. apply Hd in Hx as [[]%not_elem_of_empty|?]. done.
  - intros Hx. apply Hd. by right.
  - intros Hx. apply Hu in Hx as [[]%not_elem_of_empty|?]. done.
  - intros Hx. apply Hu. by right.
Qed.

Lemma delete_is_Ok db o : deletable db o → is_Ok (delete db o).
Proof.
  intros Hsafe. unfold delete.
  destruct (collect_is_Ok recursion_limit db empty_collector o
              (rank_limit _) Hsafe) as [c ->].
  by eexists.
Qed.

Lemma delete_protected db o x :
  reach db o x → protected db x → delete db o = Raise ProtectedError.
Proof.
  intros Hx Hp. unfold delete.
  by rewrite (collect_protected _ db empty_collector o x (rank_limit _) Hx Hp).
Qed.

Lemma delete_Raise db o e : delete db o = Raise e → e = ProtectedError.
Proof.
  unfold delete.
  destruct (collect recursion_limit db empty_collector o) as [c|e'] eqn:E;
    [done|].
  intros [= <-]. eapply collect_Raise; [apply rank_limit|exact E].
Qed.

(** ** The tables after a deletion *)

Lemma keep_lookup {A} c m (t : gmap positive A) i :
  keep c m t !! i = if decide ((m, i) ∈ data c) then None else t !! i.
Proof.
  unfold keep. case_decide as H.
  - apply map_lookup_filter_None. right. intros r _ Hn. simpl in Hn. done.
  - destruct (t !! i) as [r|] eqn:E.
    + apply map_lookup_filter_Some. done.
    + apply map_lookup_filter_None. by left.
Qed.

Lemma null_where_lookup {A} c f (clear : A → A) (t : gmap positive A) i :
  null_where c f clear t !! i =
  (λ r, if decide ((f, i) ∈ field_updates c) then clear r else r) <$> t !! i.
Proof.
  unfold null_where. rewrite map_lookup_imap. by destruct (t !! i).
Qed.

Lemma fk_column_purge c db f i :
  (∀ u, u ∈ field_updates c → on_delete u.1 = SET_NULL) →
  fk_column (purge c db) f !! i = column_after c db f i.
Proof.
  intros Hupd. unfold column_after.
  destruct f; simpl; rewrite !lookup_fmap, keep_lookup;
    rewrite ?null_where_lookup, ?lookup_fmap;
    repeat case_decide; try done;
    try (match goal with H : _ ∈ field_updates c |- _ =>
           by apply Hupd in H end);
    match goal with |- context [?t !! i] => by destruct (t !! i) end.
Qed.

(** ** The schema: who references whom *)

Lemma lookup_fmap_Some_Some {A} (g : A → option positive)
    (t : gmap positive A) i p :
  (g <$> t) !! i = Some (Some p) ↔ ∃ r, t !! i = Some r ∧ g r = Some p.
Proof.
  rewrite lookup_fmap. destruct (t !! i) as [r|]; simpl; split.
  - intros [= H]. eauto.
  - intros (r' & [= <-] & H). congruence.
  - done.
  - by intros (r' & ? & _).
Qed.

Lemma references_Translation_talk db i t :
  references db Translation_talk i t ↔
  ∃ r, translations db !! i = Some r ∧ Translation.talk r = t.
Proof.
  unfold references. simpl. rewrite lookup_fmap_Some_Some.
  split; intros (r & ? & ?); exists r; split; congruence.
Qed.

Lemma references_Translation_author db i u :
  references db Translation_author i u ↔
  ∃ r, translations db !! i = Some r ∧ Translation.author r = Some u.
Proof. unfold references. simpl. apply lookup_fmap_Some_Some. Qed.

Lemma references_Shift_talk db i t :
  references db Shift_talk i t ↔
  ∃ r, shifts db !! i = Some r ∧ Shift.talk r = t.
Proof.
  unfold references. simpl. rewrite lookup_fmap_Some_Some.
  split; intros (r & ? & ?); exists r; split; congruence.
Qed.

Lemma references_ShiftAssignment_shift db i s :
  references db ShiftAssignment_shift i s ↔
  ∃ r, shiftassignments db !! i = Some r ∧ ShiftAssignment.shift r = s.
Proof.
  unfold references. simpl. rewrite lookup_fmap_Some_Some.
  split; intros (r & ? & ?); exists r; split; congruence.
Qed.

Lemma references_ShiftAssignment_user db i u :
  references db ShiftAssignment_user i u ↔
  ∃ r, shiftassignments db !! i = Some r ∧ ShiftAssignment.user r = u.
Proof.
  unfold references. simpl. rewrite lookup_fmap_Some_Some.
  split; intros (r & ? & ?); exists r; split; congruence.
Qed.

Lemma references_Translator_user db i u :
  references db Translator_user i u ↔
  ∃ r, translators db !! i = Some r ∧ Translator.user r = u.
Proof.
  unfold references. simpl. rewrite lookup_fmap_Some_Some.
  split; intros (r & ? & ?); exists r; split; congruence.
Qed.

Lemma references_TranslatorSpeaks_user db i u :
  references db TranslatorSpeaks_user i u ↔
  ∃ r, translatorspeaks db !! i = Some r ∧ TranslatorSpeaks.user r = u.
Proof.
  unfold references. simpl. rewrite lookup_fmap_Some_Some.
  split; intros (r & ? & ?); exists r; split; congruence.
Qed.

Lemma references_Room_conference db i c :
  references db Room_conference i c ↔
  ∃ r, rooms db !! i = Some r ∧ Room.conference r = c.
Proof.
  unfold references. simpl. rewrite lookup_fmap_Some_Some.
  split; intros (r & ? & ?); exists r; split; congruence.
Qed.

Lemma references_Talk_conference db i c :
  references db Talk_conference i c ↔
  ∃ r, talks db !! i = Some r ∧ Talk.conference r = c.
Proof.
  unfold references. simpl. rewrite lookup_fmap_Some_Some.
  split; intros (r & ? & ?); exists r; split; congruence.
Qed.

Lemma references_Talk_room db i c :
  references db Talk_room i c ↔
  ∃ r, talks db !! i = Some r ∧ Talk.room r = c.
Proof.
  unfold references. simpl. rewrite lookup_fmap_Some_Some.
  split; intros (r & ? & ?); exists r; split; congruence.
Qed.

Lemma references_Booth_room db i c :
  references db Booth_room i c ↔
  ∃ r, booths db !! i = Some r ∧ Booth.room r = c.
Proof.
  unfold references. simpl. rewrite lookup_fmap_Some_Some.
  split; intros (r & ? & ?); exists r; split; congruence.
Qed.

(** A model that no cascading field points to takes nothing along. *)
Lemma reach_no_cascade db o x :
  (∀ f, fk_to f = o.1 → on_delete f ≠ CASCADE) →
  reach db o x ↔ x = o.
Proof.
  intros Hno. rewrite reach_inv. split; [|by left].
  intros [?|(f & Hto & Hpol & _)]; [done|]. by destruct (Hno f).
Qed.

Lemma reach_ShiftAssignment db a x :
  reach db (MShiftAssignment, a) x ↔ x = (MShiftAssignment, a).
Proof. apply reach_no_cascade. by intros []. Qed.

Lemma reach_Translation db a x :
  reach db (MTranslation, a) x ↔ x = (MTranslation, a).
Proof. apply reach_no_cascade. by intros []. Qed.

Lemma reach_Translator db a x :
  reach db (MTranslator, a) x ↔ x = (MTranslator, a).
Proof. apply reach_no_cascade. by intros []. Qed.

Lemma reach_TranslatorSpeaks db a x :
  reach db (MTranslatorSpeaks, a) x ↔ x = (MTranslatorSpeaks, a).
Proof. apply reach_no_cascade. by intros []. Qed.

Lemma reach_Room db a x : reach db (MRoom, a) x ↔ x = (MRoom, a).
Proof. apply reach_no_cascade. by intros []. Qed.

Lemma reach_Conference db a x :
  reach db (MConference, a) x ↔ x = (MConference, a).
Proof. apply reach_no_cascade. by intros []. Qed.

Lemma reach_Language db a x : reach db (MLanguage, a) x ↔ x = (MLanguage, a).
Proof. apply reach_no_cascade. by intros []. Qed.

Lemma reach_Booth db a x : reach db (MBooth, a) x ↔ x = (MBooth, a).
Proof. apply reach_no_cascade. by intros []. Qed.

Lemma reach_Shift db s x :
  reach db (MShift, s) x ↔
  x = (MShift, s) ∨
  ∃ a, x = (MShiftAssignment, a) ∧ references db ShiftAssignment_shift a s.
Proof.
  rewrite reach_inv. split.
  - intros [?|(f & Hto & Hpol & a & Hr & Hx)]; [by left|right].
    destruct f; try discriminate. apply reach_ShiftAssignment in Hx.
    by exists a.
  - intros [?|(a & -> & Hr)]; [by left|right].
    exists ShiftAssignment_shift. repeat split. exists a. split; [done|].
    constructor.
Qed.

Lemma reach_Talk db t x :
  reach db (MTalk, t) x ↔
  x = (MTalk, t) ∨
  (∃ i, x = (MTranslation, i) ∧ references db Translation_talk i t) ∨
  (∃ s, references db Shift_talk s t ∧
        (x = (MShift, s) ∨
         ∃ a, x = (MShiftAssignment, a) ∧
              references db ShiftAssignment_shift a s)).
Proof.
  rewrite reach_inv. split.
  - intros [?|(f & Hto & Hpol & s & Hr & Hx)]; [by left|right].
    destruct f; try discriminate.
    + left. apply reach_Translation in Hx. by exists s.
    + right. apply reach_Shift in Hx. by exists s.
  - intros [?|[(i & -> & Hr)|(s & Hr & Hx)]]; [by left|right..].
    + exists Translation_talk. repeat split. exists i. split; [done|].
      constructor.
    + exists Shift_talk. repeat split. exists s. split; [done|].
      by apply reach_Shift.
Qed.

Lemma reach_User db u x :
  reach db (MUser, u) x ↔
  x = (MUser, u) ∨
  (∃ i, x = (MTranslator, i) ∧ references db Translator_user i u) ∨
  (∃ i, x = (MTranslatorSpeaks, i) ∧ references db TranslatorSpeaks_user i u) ∨
  (∃ i, x = (MShiftAssignment, i) ∧ references db ShiftAssignment_user i u).
Proof.
  rewrite reach_inv. split.
  - intros [?|(f & Hto & Hpol & s & Hr & Hx)]; [by left|right].
    destruct f; try discriminate.
    + left. apply reach_Translator in Hx. by exists s.
    + right; left. apply reach_TranslatorSpeaks in Hx. by exists s.
    + right; right. apply reach_ShiftAssignment in Hx. by exists s.
  - intros [?|[(i & -> & Hr)|[(i & -> & Hr)|(i & -> & Hr)]]]; [by left|right..].
    + exists Translator_user. repeat split. exists i. split; [done|].
      constructor.
    + exists TranslatorSpeaks_user. repeat split. exists i. split; [done|].
      constructor.
    + exists ShiftAssignment_user. repeat split. exists i. split; [done|].
      constructor.
Qed.

Lemma unprotected_not_protected db o : unprotected o.1 → ¬ protected db o.
Proof. intros Hm (f & i & Hto & Hpol & _). by destruct (Hm f). Qed.

Lemma unprotected_User : unprotected MUser.
Proof. by intros []. Qed.
Lemma unprotected_Talk : unprotected MTalk.
Proof. by intros []. Qed.
Lemma unprotected_Translation : unprotected MTranslation.
Proof. by intros []. Qed.
Lemma unprotected_Translator : unprotected MTranslator.
Proof. by intros []. Qed.
Lemma unprotected_TranslatorSpeaks : unprotected MTranslatorSpeaks.
Proof. by intros []. Qed.
Lemma unprotected_Shift : unprotected MShift.
Proof. by intros []. Qed.
Lemma unprotected_ShiftAssignment : unprotected MShiftAssignment.
Proof. by intros []. Qed.

Lemma deletable_Talk db t : deletable db (MTalk, t).
Proof.
  intros x Hx. apply unprotected_not_protected.
  apply reach_Talk in Hx
    as [->|[(i & -> & _)|(s & _ & [->|(a & -> & _)])]]; simpl.
  - apply unprotected_Talk.
  - apply unprotected_Translation.
  - apply unprotected_Shift.
  - apply unprotected_ShiftAssignment.
Qed.

Lemma deletable_Shift db s : deletable db (MShift, s).
Proof.
  intros x Hx. apply unprotected_not_protected.
  apply reach_Shift in Hx as [->|(a & -> & _)]; simpl.
  - apply unprotected_Shift.
  - apply unprotected_ShiftAssignment.
Qed.

Lemma deletable_User db u : deletable db (MUser, u).
Proof.
  intros x Hx. apply unprotected_not_protected.
  apply reach_User in Hx
    as [->|[(i & -> & _)|[(i & -> & _)|(i & -> & _)]]]; simpl.
  - apply unprotected_User.
  - apply unprotected_Translator.
  - apply unprotected_TranslatorSpeaks.
  - apply unprotected_ShiftAssignment.
Qed.

(** The only field of the schema that is set to null. *)
Lemma nulled_inv db o u :
  nulled db o u ↔
  ∃ p, o = (MUser, p) ∧ u.1 = Translation_author ∧
       references db Translation_author u.2 p.
Proof.
  destruct o as [m p], u as [f i]. unfold nulled. simpl. split.
  - intros (Hto & Hpol & Hr). destruct f; try discriminate. simpl in Hto.
    subst m. by exists p.
  - intros (p' & [= -> ->] & -> & Hr). done.
Qed.

Lemma reach_nulled_Talk db t u : ¬ reach_nulled db (MTalk, t) u.
Proof.
  intros (x & Hx & (p & -> & _)%nulled_inv).
  apply reach_Talk in Hx as [?|[(? & ? & _)|(? & _ & [?|(? & ? & _)])]]; done.
Qed.

Lemma reach_nulled_Shift db t u : ¬ reach_nulled db (MShift, t) u.
Proof.
  intros (x & Hx & (p & -> & _)%nulled_inv).
  apply reach_Shift in Hx as [?|(? & ? & _)]; done.
Qed.

Lemma reach_nulled_User db p u :
  reach_nulled db (MUser, p) u ↔
  u.1 = Translation_author ∧ references db Translation_author u.2 p.
Proof.
  split.
  - intros (x & Hx & (p' & -> & Hf & Hr)%nulled_inv).
    apply reach_User in Hx
      as [[= ->]|[(? & ? & _)|[(? & ? & _)|(? & ? & _)]]]; done.
  - intros [Hf Hr]. exists (MUser, p). split; [constructor|].
    apply nulled_inv. by exists p.
Qed.

(** Tables a deletion leaves alone. *)
Lemma keep_id {A} c m (t : gmap positive A) :
  (∀ i, (m, i) ∉ data c) → keep c m t = t.
Proof.
  intros H. apply map_eq. intros i. rewrite keep_lookup.
  case_decide; [by destruct (H i)|done].
Qed.

Lemma null_where_id {A} c f (clear : A → A) (t : gmap positive A) :
  (∀ i, (f, i) ∉ field_updates c) → null_where c f clear t = t.
Proof.
  intros H. apply map_eq. intros i. rewrite null_where_lookup.
  case_decide; [by destruct (H i)|]. by destruct (t !! i).
Qed.

(** ** Deleting a talk

    C3: deleting a Talk succeeds, removes the talk, every Translation
    and every Shift whose [talk] is that talk, and leaves the rest: the
    tables of the other entities are unchanged, and so is every other
    talk, every translation and shift of another talk, and every shift
    assignment whose shift is not a shift of the talk. *)
Theorem delete_Talk_cascades db t :
  ∃ db', delete db (MTalk, t) = Ok db' ∧
    talks db' !! t = None ∧
    (∀ i r, translations db !! i = Some r → Translation.talk r = t →
            translations db' !! i = None) ∧
    (∀ i r, shifts db !! i = Some r → Shift.talk r = t →
            shifts db' !! i = None) ∧
    users db' = users db ∧ languages db' = languages db ∧
    conferences db' = conferences db ∧ rooms db' = rooms db ∧
    translators db' = translators db ∧
    translatorspeaks db' = translatorspeaks db ∧ booths db' = booths db ∧
    (∀ i, i ≠ t → talks db' !! i = talks db !! i) ∧
    (∀ i r, translations db !! i = Some r → Translation.talk r ≠ t →
            translations db' !! i = Some r) ∧
    (∀ i r, shifts db !! i = Some r → Shift.talk r ≠ t →
            shifts db' !! i = Some r) ∧
    (∀ i r, shiftassignments db !! i = Some r →
            (∀ s, shifts db !! ShiftAssignment.shift r = Some s →
                  Shift.talk s ≠ t) →
            shiftassignments db' !! i = Some r).
Proof.
  destruct (delete_is_Ok db (MTalk, t) (deletable_Talk db t)) as [db' E].
  exists db'. split; [done|].
  apply delete_inv in E as (c & -> & _ & Hd & Hu). simpl.
  assert (Hother : ∀ m i, m ≠ MTalk → m ≠ MTranslation → m ≠ MShift →
                          m ≠ MShiftAssignment → (m, i) ∉ data c).
  { intros m i ? ? ? ? Hi%Hd%reach_Talk.
    destruct Hi as [?|[(? & ? & _)|(? & _ & [?|(? & ? & _)])]]; congruence. }
  assert (Hnoupd : ∀ f i, (f, i) ∉ field_updates c).
  { intros f i Hi%Hu. by eapply reach_nulled_Talk. }
  repeat split.
  - rewrite keep_lookup. case_decide as H; [done|]. destruct H. apply Hd.
    constructor.
  - intros i r Hi Ht. rewrite keep_lookup. case_decide as H; [done|].
    destruct H. apply Hd, reach_Talk. right; left. exists i. split; [done|].
    apply references_Translation_talk. eauto.
  - intros i r Hi Ht. rewrite keep_lookup. case_decide as H; [done|].
    destruct H. apply Hd, reach_Talk. right; right. exists i.
    split; [|by left]. apply references_Shift_talk. eauto.
  - apply keep_id. intros i. by apply Hother.
  - apply keep_id. intros i. by apply Hother.
  - apply keep_id. intros i. by apply Hother.
  - apply keep_id. intros i. by apply Hother.
  - apply keep_id. intros i. by apply Hother.
  - apply keep_id. intros i. by apply Hother.
  - apply keep_id. intros i. by apply Hother.
  - intros i Hne. rewrite keep_lookup. case_decide as H; [|done].
    apply Hd, reach_Talk in H
      as [?|[(? & ? & _)|(? & _ & [?|(? & ? & _)])]]; congruence.
  - intros i r Hi Hne. rewrite keep_lookup, null_where_lookup, Hi. simpl.
    case_decide as H.
    + apply Hd, reach_Talk in H
        as [?|[(i' & [= <-] & Hr)|(? & _ & [?|(? & ? & _)])]]; try done.
      apply references_Translation_talk in Hr as (r' & ? & ?). congruence.
    + case_decide as H'; [by destruct (Hnoupd _ _ H')|done].
  - intros i r Hi Hne. rewrite keep_lookup, null_where_lookup, Hi. simpl.
    case_decide as H.
    + apply Hd, reach_Talk in H
        as [?|[(? & ? & _)|(s & Hr & [[= <-]|(? & ? & _)])]]; try done.
      apply references_Shift_talk in Hr as (r' & ? & ?). congruence.
    + case_decide as H'; [by destruct (Hnoupd _ _ H')|done].
  - intros i r Hi Hne. rewrite keep_lookup, Hi. case_decide as H; [|done].
    apply Hd, reach_Talk in H
      as [?|[(? & ? & _)|(s & Hr & [?|(i' & [= <-] & Hr')])]]; try done.
    apply references_Shift_talk in Hr as (rs & Hs & Hts).
    apply references_ShiftAssignment_shift in Hr' as (r' & Hi' & <-).
    assert (r' = r) as -> by congruence. by destruct (Hne rs Hs).
Qed.

(** C10: deleting a Talk also removes every ShiftAssignment whose
    shift references the talk; and a ShiftAssignment that is left was
    there before and its shift is untouched, so none references a
    deleted shift. *)
Theorem delete_Talk_chains db t :
  ∃ db', delete db (MTalk, t) = Ok db' ∧
    (∀ a r s, shiftassignments db !! a = Some r →
              shifts db !! ShiftAssignment.shift r = Some s →
              Shift.talk s = t →
              shiftassignments db' !! a = None) ∧
    (∀ a r, shiftassignments db' !! a = Some r →
            shiftassignments db !! a = Some r ∧
            shifts db' !! ShiftAssignment.shift r =
            shifts db !! ShiftAssignment.shift r).
Proof.
  destruct (delete_is_Ok db (MTalk, t) (deletable_Talk db t)) as [db' E].
  exists db'. split; [done|].
  apply delete_inv in E as (c & -> & _ & Hd & Hu). simpl. split.
  - intros a r s Ha Hs Ht. rewrite keep_lookup. case_decide as H; [done|].
    destruct H. apply Hd, reach_Talk. right; right.
    exists (ShiftAssignment.shift r). split.
    + apply references_Shift_talk. eauto.
    + right. exists a. split; [done|].
      apply references_ShiftAssignment_shift. eauto.
  - intros a r. rewrite keep_lookup. case_decide as Ha; [done|].
    intros Hr. split; [done|].
    rewrite keep_lookup, null_where_lookup. case_decide as Hs.
    + destruct Ha. apply Hd, reach_Talk.
      apply Hd, reach_Talk in Hs
        as [?|[(? & ? & _)|(s & Hst & [[= <-]|(? & ? & _)])]]; try done.
      right; right. exists (ShiftAssignment.shift r). split; [done|].
      right. exists a. split; [done|].
      apply references_ShiftAssignment_shift. eauto.
    + case_decide as H'.
      * apply Hu in H'. by destruct (reach_nulled_Talk _ _ _ H').
      * by destruct (shifts db !! ShiftAssignment.shift r).
Qed.

(** ** Deleting a shift or a user

    C5: for a ShiftAssignment row, deleting its shift succeeds and
    removes the row, and so does deleting its user. *)
Theorem delete_Shift_or_user_cascades db a r :
  shiftassignments db !! a = Some r →
  (∃ db', delete db (MShift, ShiftAssignment.shift r) = Ok db' ∧
          shiftassignments db' !! a = None) ∧
  (∃ db', delete db (MUser, ShiftAssignment.user r) = Ok db' ∧
          shiftassignments db' !! a = None).
Proof.
  intros Ha. split.
  - destruct (delete_is_Ok db _ (deletable_Shift db (ShiftAssignment.shift r)))
      as [db' E].
    exists db'. split; [done|].
    apply delete_inv in E as (c & -> & _ & Hd & _). simpl.
    rewrite keep_lookup. case_decide as H; [done|]. destruct H.
    apply Hd, reach_Shift. right. exists a. split; [done|].
    apply references_ShiftAssignment_shift. eauto.
  - destruct (delete_is_Ok db _ (deletable_User db (ShiftAssignment.user r)))
      as [db' E].
    exists db'. split; [done|].
    apply delete_inv in E as (c & -> & _ & Hd & _). simpl.
    rewrite keep_lookup. case_decide as H; [done|]. destruct H.
    apply Hd, reach_User. right; right; right. exists a. split; [done|].
    apply references_ShiftAssignment_user. eauto.
Qed.

Lemma delete_Shift_or_user_cascades_witness :
  (∃ db', delete db_shift (MShift, 1%positive) = Ok db' ∧
          shiftassignments db' !! 1%positive = None) ∧
  (∃ db', delete db_shift (MUser, 1%positive) = Ok db' ∧
          shiftassignments db' !! 1%positive = None).
Proof.
  apply (delete_Shift_or_user_cascades db_shift 1 (ShiftAssignment_default 1 1)).
  reflexivity.
Defined.

(** C9: for a Translation with an author, deleting that user succeeds
    and keeps the row, with [author] null and [talk], [language],
    [title], [subtitle], [abstract] and [description] as they were. *)
Theorem delete_author_sets_null db i r u :
  translations db !! i = Some r → Translation.author r = Some u →
  ∃ db' r', delete db (MUser, u) = Ok db' ∧
    translations db' !! i = Some r' ∧
    Translation.author r' = None ∧
    Translation.talk r' = Translation.talk r ∧
    Translation.language r' = Translation.language r ∧
    Translation.title r' = Translation.title r ∧
    Translation.subtitle r' = Translation.subtitle r ∧
    Translation.abstract r' = Translation.abstract r ∧
    Translation.description r' = Translation.description r.
Proof.
  intros Hi Hu.
  destruct (delete_is_Ok db _ (deletable_User db u)) as [db' E].
  exists db', (Translation.clear_author r). split; [done|].
  apply delete_inv in E as (c & -> & _ & Hd & Hupd). simpl.
  split; [|done].
  rewrite keep_lookup, null_where_lookup, Hi. simpl. case_decide as H.
  - apply Hd, reach_User in H
      as [?|[(? & ? & _)|[(? & ? & _)|(? & ? & _)]]]; done.
  - case_decide as H'; [done|]. destruct H'. apply Hupd, reach_nulled_User.
    split; [done|]. apply references_Translation_author. eauto.
Qed.

Lemma delete_author_sets_null_witness :
  ∃ db' r', delete db_shift (MUser, 1%positive) = Ok db' ∧
    translations db' !! 1%positive = Some r' ∧
    Translation.author r' = None ∧
    Translation.talk r' = 1%positive ∧
    Translation.language r' = 1%positive ∧
    Translation.title r' = "Eroeffnung" ∧
    Translation.subtitle r' = "" ∧
    Translation.abstract r' = "" ∧
    Translation.description r' = "".
Proof.
  apply (delete_author_sets_null db_shift 1
           (Translation.mk "Eroeffnung" "" "" "" (Some 1%positive) 1 1) 1);
    reflexivity.
Defined.

Lemma delete_Room_inv db r db' :
  delete db (MRoom, r) = Ok db' →
  talks db' = talks db ∧ conferences db' = conferences db ∧
  ∀ i, rooms db' !! i = if decide (i = r) then None else rooms db !! i.
Proof.
  intros (c & -> & _ & Hd & _)%delete_inv. simpl.
  assert (Hdata : ∀ x, x ∈ data c ↔ x = (MRoom, r)).
  { intros x. rewrite Hd. apply reach_Room. }
  repeat split.
  - apply keep_id. intros i Hi%Hdata. done.
  - apply keep_id. intros i Hi%Hdata. done.
  - intros i. rewrite keep_lookup.
    case_decide as H1; case_decide as H2; try done.
    + apply Hdata in H1. congruence.
    + subst i. destruct H1. by apply Hdata.
Qed.

Lemma delete_all_rooms_inv l db db' :
  delete_all db ((λ r, (MRoom, r)) <$> l) = Ok db' →
  talks db' = talks db ∧ conferences db' = conferences db ∧
  ∀ i, rooms db' !! i = if decide (i ∈ l) then None else rooms db !! i.
Proof.
  revert db. induction l as [|r l IH]; intros db; unfold delete_all; simpl.
  - intros [= <-]. split; [done|]. split; [done|]. intros i.
    first [done | case_decide as H; [by apply not_elem_of_nil in H|done]].
  - destruct (delete db (MRoom, r)) as [db1|] eqn:E; [|done].
    intros H. apply delete_Room_inv in E as (Ht & Hc & Hr).
    apply IH in H as (Ht' & Hc' & Hr').
    split; [congruence|]. split; [congruence|].
    intros i. rewrite Hr', Hr.
    repeat case_decide; try done;
      repeat match goal with
             | H : _ ∈ _ :: _ |- _ => apply elem_of_cons in H as [?|?]
             | H : _ ∉ _ :: _ |- _ => apply not_elem_of_cons in H as [? ?]
             end; done.
Qed.

(** ** Deleting a conference

    C4, amended: deleting a Conference that some Room references fails
    with [ProtectedError] and leaves the database as it was; once every
    such Room has been deleted, deleting the Conference succeeds
    provided no Talk references the Conference. *)
Theorem delete_Conference_after_rooms db c :
  (related_objects db Room_conference c ≠ [] →
   delete db (MConference, c) = Raise ProtectedError ∧
   exec_delete db (MConference, c) = (db, Some ProtectedError)) ∧
  (∀ db1, delete_all db (room_objs db c) = Ok db1 →
          related_objects db Talk_conference c = [] →
          ∃ db2, delete db1 (MConference, c) = Ok db2 ∧
                 conferences db2 !! c = None).
Proof.
  split.
  - intros Hne.
    assert (delete db (MConference, c) = Raise ProtectedError) as E.
    { destruct (related_objects db Room_conference c) as [|i l] eqn:El; [done|].
      apply (delete_protected db _ (MConference, c)); [constructor|].
      exists Room_conference, i. repeat split.
      apply elem_of_related_objects. simpl. rewrite El. left. }
    split; [done|]. unfold exec_delete. by rewrite E.
  - intros db1 Hall Hnotalk.
    apply delete_all_rooms_inv in Hall as (Ht & Hc & Hr).
    assert (deletable db1 (MConference, c)) as Hsafe.
    { intros x ->%reach_Conference (f & i & Hto & Hpol & Href).
      destruct f; try discriminate.
      - apply references_Room_conference in Href as (r & Hi & Hrc).
        rewrite Hr in Hi. case_decide as Hin; [done|]. destruct Hin.
        apply elem_of_related_objects, references_Room_conference. eauto.
      - apply references_Talk_conference in Href as (r & Hi & Hrc).
        rewrite Ht in Hi.
        eapply (proj1 (related_objects_nil _ _ _) Hnotalk).
        apply references_Talk_conference. eauto. }
    destruct (delete_is_Ok _ _ Hsafe) as [db2 E]. exists db2.
    split; [done|]. apply delete_inv in E as (cc & -> & _ & Hd & _). simpl.
    rewrite keep_lookup. case_decide as H; [done|]. destruct H. apply Hd.
    constructor.
Qed.

Lemma delete_Conference_after_rooms_witness :
  (delete db_one_room (MConference, 1%positive) = Raise ProtectedError ∧
   exec_delete db_one_room (MConference, 1%positive) =
     (db_one_room, Some ProtectedError)) ∧
  ∃ db1 db2,
    delete_all db_one_room (room_objs db_one_room 1) = Ok db1 ∧
    delete db1 (MConference, 1%positive) = Ok db2 ∧
    conferences db2 !! 1%positive = None.
Proof.
  destruct (delete_Conference_after_rooms db_one_room 1) as [H1 H2]. split.
  - apply H1. vm_compute. discriminate.
  - destruct (delete_all db_one_room (room_objs db_one_room 1))
      as [db1|e] eqn:E; [|by vm_compute in E].
    destruct (H2 db1 eq_refl) as (db2 & E2 & Hc); [vm_compute; reflexivity|].
    by exists db1, db2.
Defined.

(** C4 as stated fails: in [db_guest_room] the conference 1 has one
    room; after deleting it no room references the conference, and
    deleting the conference still raises [ProtectedError], since a talk
    references it. *)
Lemma delete_Conference_counterexample :
  room_objs db_guest_room 1 = [(MRoom, 1%positive)] ∧
  ∃ db1, delete_all db_guest_room (room_objs db_guest_room 1) = Ok db1 ∧
         related_objects db1 Room_conference 1 = [] ∧
         delete db1 (MConference, 1%positive) = Raise ProtectedError.
Proof.
  split; [reflexivity|]. eexists. split; [vm_compute; reflexivity|].
  split; vm_compute; reflexivity.
Qed.

(** ** The properties of the models *)

Lemma fetch_Some db m p o :
  get_instance db (m, p) = Some o → fetch db m p = Ok (VInstance o).
Proof. unfold fetch. by intros ->. Qed.

(** C1: [language_or_any] returns the shift's language when the field
    is set, and the string ['*'] when it is null. *)
Theorem language_or_any_spec db i self :
  (∀ l r, Shift.language self = Some l → languages db !! l = Some r →
          Shift_language_or_any db i self = Ok (VInstance (ILanguage l r))) ∧
  (Shift.language self = None →
   Shift_language_or_any db i self = Ok (VStr "*")).
Proof.
  unfold Shift_language_or_any, instance_attr. simpl. split.
  - intros l r -> Hr. simpl. unfold fetch, get_instance. simpl. by rewrite Hr.
  - by intros ->.
Qed.

Lemma language_or_any_spec_witness :
  Shift_language_or_any db_shift 1 (Shift.mk 1 1 (Some 1%positive)) =
    Ok (VInstance (ILanguage 1 (Language.mk "de" "German" "Deutsch"))) ∧
  Shift_language_or_any db_shift 1 (Shift.mk 1 1 None) = Ok (VStr "*").
Proof.
  split.
  - apply (language_or_any_spec db_shift 1 (Shift.mk 1 1 (Some 1%positive)));
      reflexivity.
  - apply (language_or_any_spec db_shift 1 (Shift.mk 1 1 None)). reflexivity.
Defined.

Lemma Conference_no_acronym db i r :
  instance_attr db (IConference i r) "acronym" = Raise AttributeError.
Proof. reflexivity. Qed.

Lemma Talk_no_name db i r :
  instance_attr db (ITalk i r) "name" = Raise AttributeError.
Proof. reflexivity. Qed.

Lemma Talk_no_guid db i r :
  instance_attr db (ITalk i r) "guid" = Raise AttributeError.
Proof. reflexivity. Qed.

Lemma parametrize_unbound globals :
  models_namespace globals → load_global globals "parametrize" = Raise NameError.
Proof.
  intros H. unfold load_global.
  destruct (globals "parametrize") as [f|] eqn:E; [|done].
  assert ("parametrize" ∈ module_names) as Hin by (apply H; by rewrite E).
  assert ("parametrize" ∉ module_names) as Hout
    by (by apply (bool_decide_unpack _)).
  done.
Qed.

Lemma Talk_slug_raises globals db i self :
  is_Some (conferences db !! Talk.conference self) →
  Talk_slug globals db i self = Raise AttributeError.
Proof.
  intros [c Hc]. unfold Talk_slug, instance_attr. simpl.
  unfold fetch, get_instance. simpl. rewrite Hc. reflexivity.
Qed.

(** C7: for a Talk whose conference exists, [slug], [watch_url] and
    [slides_url] raise [AttributeError]; they return no value. *)
Theorem Talk_properties_raise globals db i self :
  is_Some (conferences db !! Talk.conference self) →
  getattr globals db (ITalk i self) "slug" = Raise AttributeError ∧
  getattr globals db (ITalk i self) "watch_url" = Raise AttributeError ∧
  getattr globals db (ITalk i self) "slides_url" = Raise AttributeError.
Proof.
  intros Hc. split; [|split].
  - simpl. by apply Talk_slug_raises.
  - simpl. unfold Talk_watch_url. by rewrite Talk_slug_raises.
  - reflexivity.
Qed.

Lemma Talk_properties_raise_witness :
  getattr (λ _, None) db_shift
    (ITalk 1 (Talk.mk "Opening" "" "" "" 1 "11223" "guid" "" "" "" 1 1
                      "2019-12-27 11:00" "2019-12-27 11:30")) "slug"
    = Raise AttributeError ∧
  getattr (λ _, None) db_shift
    (ITalk 1 (Talk.mk "Opening" "" "" "" 1 "11223" "guid" "" "" "" 1 1
                      "2019-12-27 11:00" "2019-12-27 11:30")) "watch_url"
    = Raise AttributeError ∧
  getattr (λ _, None) db_shift
    (ITalk 1 (Talk.mk "Opening" "" "" "" 1 "11223" "guid" "" "" "" 1 1
                      "2019-12-27 11:00" "2019-12-27 11:30")) "slides_url"
    = Raise AttributeError.
Proof.
  apply (Talk_properties_raise (λ _, None) db_shift 1). by eexists.
Defined.

Lemma avatar_url_TypeError db i self u :
  users db !! Translator.user self = Some u →
  Translator_avatar_url db i self = Raise TypeError.
Proof.
  intros Hu. unfold Translator_avatar_url, instance_attr. simpl.
  unfold fetch, get_instance. simpl. rewrite Hu. reflexivity.
Qed.

(** C8: for the translator of user alice, whose email is
    [Alice@Example.org], the URL of the docstring is the one with the
    MD5 digest of the lowercased email, but [avatar_url] raises
    [TypeError]: [hashlib.md5] is handed a [str]. *)
Theorem avatar_url_raises :
  users db_shift !! Translator.user alice
    = Some (User.mk "alice" "Alice@Example.org") ∧
  gravatar_url "Alice@Example.org"
    = "https://www.gravatar.com/avatar/fbf7c6aec1d4280b7c2704c1c0478bd6" ∧
  getattr (λ _, None) db_shift (ITranslator 1 alice) "avatar_url"
    = Raise TypeError.
Proof. repeat split; vm_compute; reflexivity. Qed.

(** ** Creating rows *)

Lemma check_fk_Ok db m p : exists_obj db (m, p) → check_fk db m p = Ok ().
Proof. intros H. unfold check_fk. by case_decide. Qed.

Lemma check_fk_Raise db m p :
  ¬ exists_obj db (m, p) → check_fk db m p = Raise IntegrityError.
Proof. intros H. unfold check_fk. by case_decide. Qed.

Lemma check_fk_result db m p :
  check_fk db m p = Ok () ∨ check_fk db m p = Raise IntegrityError.
Proof. unfold check_fk. case_decide; [by left|by right]. Qed.

Lemma check_fk_null_result db m p :
  check_fk_null db m p = Ok () ∨ check_fk_null db m p = Raise IntegrityError.
Proof. destruct p; simpl; [apply check_fk_result|by left]. Qed.

Lemma check_unique_Ok {A K} `{EqDecision K} (cols : A → K) r
    (t : gmap positive A) :
  (∀ i r', t !! i = Some r' → cols r' ≠ cols r) →
  check_unique cols r t = Ok ().
Proof.
  intros H. unfold check_unique. case_decide as E; [|done].
  destruct E as (i & r' & Hi & Heq). by destruct (H i r' Hi).
Qed.

Lemma check_unique_Raise {A K} `{EqDecision K} (cols : A → K) r
    (t : gmap positive A) i r' :
  t !! i = Some r' → cols r' = cols r →
  check_unique cols r t = Raise IntegrityError.
Proof.
  intros Hi Heq. unfold check_unique. case_decide as E; [done|].
  destruct E. by exists i, r'.
Qed.

Lemma next_pk_fresh {A} (t : gmap positive A) : t !! next_pk t = None.
Proof. apply not_elem_of_dom. unfold next_pk. apply is_fresh. Qed.

Lemma bind_Raise {A B} (f : A → result B) (r : result A) e :
  r = Raise e → r ≫= f = Raise e.
Proof. by intros ->. Qed.

Lemma bind_unit_Raise {B} (f : unit → result B) (r : result unit) :
  (r = Ok () ∨ r = Raise IntegrityError) →
  f () = Raise IntegrityError → r ≫= f = Raise IntegrityError.
Proof. by intros [->| ->]. Qed.

Lemma create_Translation_duplicate db r i0 r0 :
  translations db !! i0 = Some r0 →
  Translation.talk r0 = Translation.talk r →
  Translation.language r0 = Translation.language r →
  create_Translation r db = Raise IntegrityError.
Proof.
  intros Hi Ht Hl. unfold create_Translation.
  apply bind_unit_Raise; [apply check_fk_null_result|].
  apply bind_unit_Raise; [apply check_fk_result|].
  apply bind_unit_Raise; [apply check_fk_result|].
  apply bind_Raise. eapply check_unique_Raise; [exact Hi|]. simpl. congruence.
Qed.

Lemma create_Translation_first db r :
  (∀ u, Translation.author r = Some u → is_Some (users db !! u)) →
  is_Some (talks db !! Translation.talk r) →
  is_Some (languages db !! Translation.language r) →
  (∀ i0 r0, translations db !! i0 = Some r0 →
            ¬ (Translation.talk r0 = Translation.talk r ∧
               Translation.language r0 = Translation.language r)) →
  ∃ i db', create_Translation r db = Ok (i, db') ∧
           translations db !! i = None ∧
           translations db' = <[i := r]> (translations db).
Proof.
  intros Hu Ht Hl Huniq. unfold create_Translation.
  assert (check_fk_null db MUser (Translation.author r) = Ok ()) as ->.
  { destruct (Translation.author r) as [u|]; [|done]. simpl.
    apply check_fk_Ok. solve_exists_obj. }
  simpl. rewrite check_fk_Ok by solve_exists_obj. simpl.
  rewrite check_fk_Ok by solve_exists_obj. simpl.
  rewrite check_unique_Ok.
  2:{ intros i0 r0 Hi [= Ha Hb]. by destruct (Huniq i0 r0 Hi). }
  simpl. eexists _, _. split; [done|]. split; [apply next_pk_fresh|done].
Qed.

Lemma create_Talk_duplicate db r i0 r0 :
  talks db !! i0 = Some r0 →
  Talk.conference r0 = Talk.conference r →
  Talk.fahrplan_id r0 = Talk.fahrplan_id r →
  create_Talk r db = Raise IntegrityError.
Proof.
  intros Hi Ht Hl. unfold create_Talk.
  apply bind_unit_Raise; [apply check_fk_result|].
  apply bind_unit_Raise; [apply check_fk_result|].
  apply bind_unit_Raise; [apply check_fk_result|].
  apply bind_Raise. eapply check_unique_Raise; [exact Hi|]. simpl. congruence.
Qed.

Lemma create_Talk_first db r :
  is_Some (conferences db !! Talk.conference r) →
  is_Some (languages db !! Talk.language r) →
  is_Some (rooms db !! Talk.room r) →
  (∀ i0 r0, talks db !! i0 = Some r0 →
            ¬ (Talk.conference r0 = Talk.conference r ∧
               Talk.fahrplan_id r0 = Talk.fahrplan_id r)) →
  ∃ i db', create_Talk r db = Ok (i, db') ∧
           talks db !! i = None ∧
           talks db' = <[i := r]> (talks db).
Proof.
  intros Hc Hl Hr Huniq. unfold create_Talk.
  rewrite check_fk_Ok by solve_exists_obj. simpl.
  rewrite check_fk_Ok by solve_exists_obj. simpl.
  rewrite check_fk_Ok by solve_exists_obj. simpl.
  rewrite check_unique_Ok.
  2:{ intros i0 r0 Hi [= Ha Hb]. by destruct (Huniq i0 r0 Hi). }
  simpl. eexists _, _. split; [done|]. split; [apply next_pk_fresh|done].
Qed.

Lemma insert_Translator_duplicate db r i0 r0 :
  translators db !! i0 = Some r0 →
  Translator.user r0 = Translator.user r →
  insert_Translator r db = Raise IntegrityError.
Proof.
  intros Hi Hu. unfold insert_Translator.
  apply bind_unit_Raise; [apply check_fk_result|].
  apply bind_Raise. eapply check_unique_Raise; [exact Hi|done].
Qed.

Lemma insert_Translator_first db r :
  is_Some (users db !! Translator.user r) →
  (∀ i0 r0, translators db !! i0 = Some r0 →
            Translator.user r0 ≠ Translator.user r) →
  ∃ i db', insert_Translator r db = Ok (i, db') ∧
           translators db !! i = None ∧
           translators db' = <[i := r]> (translators db).
Proof.
  intros Hu Huniq. unfold insert_Translator.
  rewrite check_fk_Ok by solve_exists_obj. simpl.
  rewrite check_unique_Ok by done.
  simpl. eexists _, _. split; [done|]. split; [apply next_pk_fresh|done].
Qed.

(** ** [get_random_string] *)

Lemma string_get_lt s k : k < String.length s → is_Some (String.get k s).
Proof.
  revert k. induction s as [|c s IH]; intros k; simpl; [lia|].
  destruct k; [by eexists|]. intros H. apply IH. lia.
Qed.

Lemma choice_spec chars g :
  chars ≠ "" →
  choice chars g =
  (Ok (draw_char chars (entropy g) (cursor g)),
   mkRng (entropy g) (S (cursor g))).
Proof.
  intros Hne. unfold choice, randbelow, draw_char.
  destruct chars as [|c chars]; [done|].
  destruct (string_get_lt (String c chars)
              (entropy g (cursor g) `mod` String.length (String c chars)))
    as [x Hx].
  { apply Nat.mod_upper_bound. simpl. lia. }
  by rewrite Hx.
Qed.

Lemma get_random_string_from_spec chars n g :
  chars ≠ "" →
  get_random_string_from chars n g =
  (Ok (string_of_draws chars (entropy g) (cursor g) n),
   mkRng (entropy g) (cursor g + n)).
Proof.
  intros Hne. revert g. induction n as [|n IH]; intros g; simpl.
  - destruct g. simpl. by rewrite Nat.add_0_r.
  - rewrite choice_spec by done. rewrite IH. simpl.
    do 2 f_equal. lia.
Qed.

Lemma string_of_draws_length chars e pos n :
  String.length (string_of_draws chars e pos n) = n.
Proof. revert pos. induction n; intros pos; simpl; [done|]. by rewrite IHn. Qed.

Lemma string_of_draws_get chars e pos n k :
  k < n →
  String.get k (string_of_draws chars e pos n) =
  Some (draw_char chars e (pos + k)).
Proof.
  revert pos k. induction n as [|n IH]; intros pos k Hk; [lia|]. simpl.
  destruct k as [|k]; [by rewrite Nat.add_0_r|].
  rewrite IH by lia. do 2 f_equal. lia.
Qed.

Lemma string_of_draws_eq chars e pos pos' n :
  string_of_draws chars e pos n = string_of_draws chars e pos' n ↔
  ∀ k, k < n → draw_char chars e (pos + k) = draw_char chars e (pos' + k).
Proof.
  revert pos pos'. induction n as [|n IH]; intros pos pos'; simpl.
  - split; [intros _ k Hk; lia|done].
  - split.
    + intros [= Hc Hs] [|k] Hk; [by rewrite !Nat.add_0_r|].
      rewrite <- !Nat.add_succ_comm. apply IH; [done|lia].
    + intros H. f_equal.
      * specialize (H 0). rewrite !Nat.add_0_r in H. apply H. lia.
      * apply IH. intros k Hk. rewrite !Nat.add_succ_comm. apply H. lia.
Qed.

Lemma allowed_chars_length : String.length allowed_chars = 62.
Proof. reflexivity. Qed.

Lemma allowed_chars_NoDup : NoDup (list_ascii_of_string allowed_chars).
Proof. by apply (bool_decide_unpack _). Qed.

Lemma string_get_lookup s k :
  String.get k s = list_ascii_of_string s !! k.
Proof.
  revert k. induction s as [|c s IH]; intros [|k]; simpl; try done.
Qed.

Lemma draw_char_allowed_inj e k k' :
  draw_char allowed_chars e k = draw_char allowed_chars e k' ↔
  e k `mod` 62 = e k' `mod` 62.
Proof.
  unfold draw_char. rewrite allowed_chars_length. split; [|by intros ->].
  assert (∀ j, j < 62 → is_Some (String.get j allowed_chars)) as Hget.
  { intros j Hj. apply string_get_lt. by rewrite allowed_chars_length. }
  destruct (Hget (e k `mod` 62)) as [a Ha]; [by apply Nat.mod_upper_bound|].
  destruct (Hget (e k' `mod` 62)) as [b Hb]; [by apply Nat.mod_upper_bound|].
  rewrite Ha, Hb. simpl. intros <-.
  rewrite string_get_lookup in Ha, Hb.
  eapply NoDup_lookup; [apply allowed_chars_NoDup|exact Ha|exact Hb].
Qed.

Lemma get_random_string_spec n g :
  get_random_string n g =
  (Ok (string_of_draws allowed_chars (entropy g) (cursor g) n), advance n g).
Proof. by apply get_random_string_from_spec. Qed.

Lemma create_Translator_insert user confirmed bio contact_info g db :
  create_Translator user confirmed bio contact_info g db =
  (insert_Translator
     (Translator.mk user confirmed bio contact_info (token_at g)) db,
   advance 64 g).
Proof.
  unfold create_Translator. by rewrite get_random_string_spec.
Qed.

Lemma create_Translator_duplicate user confirmed bio contact_info g db i0 r0 :
  translators db !! i0 = Some r0 → Translator.user r0 = user →
  (create_Translator user confirmed bio contact_info g db).1
    = Raise IntegrityError.
Proof.
  intros Hi Hu. rewrite create_Translator_insert. simpl.
  by eapply insert_Translator_duplicate.
Qed.

(** C2: a first Translation for a (talk, language) pair, a first Talk
    for a (conference, fahrplan_id) pair and a first Translator for a
    user are created; after that, creating another row with the same
    pair, or another Translator for the same user, raises
    [IntegrityError]. *)
Theorem unique_constraints db :
  (∀ r r',
     (∀ u, Translation.author r = Some u → is_Some (users db !! u)) →
     is_Some (talks db !! Translation.talk r) →
     is_Some (languages db !! Translation.language r) →
     (∀ i0 r0, translations db !! i0 = Some r0 →
               ¬ (Translation.talk r0 = Translation.talk r ∧
                  Translation.language r0 = Translation.language r)) →
     Translation.talk r' = Translation.talk r →
     Translation.language r' = Translation.language r →
     ∃ i db1, create_Translation r db = Ok (i, db1) ∧
              translations db1 !! i = Some r ∧
              create_Translation r' db1 = Raise IntegrityError) ∧
  (∀ r r',
     is_Some (conferences db !! Talk.conference r) →
     is_Some (languages db !! Talk.language r) →
     is_Some (rooms db !! Talk.room r) →
     (∀ i0 r0, talks db !! i0 = Some r0 →
               ¬ (Talk.conference r0 = Talk.conference r ∧
                  Talk.fahrplan_id r0 = Talk.fahrplan_id r)) →
     Talk.conference r' = Talk.conference r →
     Talk.fahrplan_id r' = Talk.fahrplan_id r →
     ∃ i db1, create_Talk r db = Ok (i, db1) ∧
              talks db1 !! i = Some r ∧
              create_Talk r' db1 = Raise IntegrityError) ∧
  (∀ user confirmed bio contact_info confirmed' bio' contact_info' g,
     is_Some (users db !! user) →
     (∀ i0 r0, translators db !! i0 = Some r0 → Translator.user r0 ≠ user) →
     ∃ i db1 g1,
       create_Translator user confirmed bio contact_info g db
         = (Ok (i, db1), g1) ∧
       translators db1 !! i
         = Some (Translator.mk user confirmed bio contact_info (token_at g)) ∧
       (create_Translator user confirmed' bio' contact_info' g1 db1).1
         = Raise IntegrityError).
Proof.
  split; [|split].
  - intros r r' Hu Ht Hl Huniq Ht' Hl'.
    destruct (create_Translation_first db r Hu Ht Hl Huniq)
      as (i & db1 & E & _ & Hdb1).
    exists i, db1. split; [done|].
    assert (translations db1 !! i = Some r) as Hi
      by (by rewrite Hdb1, lookup_insert_eq).
    split; [done|]. by eapply create_Translation_duplicate.
  - intros r r' Hc Hl Hr Huniq Hc' Hf'.
    destruct (create_Talk_first db r Hc Hl Hr Huniq)
      as (i & db1 & E & _ & Hdb1).
    exists i, db1. split; [done|].
    assert (talks db1 !! i = Some r) as Hi
      by (by rewrite Hdb1, lookup_insert_eq).
    split; [done|]. by eapply create_Talk_duplicate.
  - intros user confirmed bio contact_info confirmed' bio' contact_info' g
           Hu Huniq.
    destruct (insert_Translator_first db
                (Translator.mk user confirmed bio contact_info (token_at g))
                Hu Huniq) as (i & db1 & E & _ & Hdb1).
    exists i, db1, (advance 64 g).
    rewrite create_Translator_insert, E. split; [done|].
    assert (translators db1 !! i
            = Some (Translator.mk user confirmed bio contact_info (token_at g)))
      as Hi by (by rewrite Hdb1, lookup_insert_eq).
    split; [done|]. by eapply create_Translator_duplicate.
Qed.

Lemma unique_constraints_witness :
  (∃ i db1, create_Translation eroeffnung db_two_users = Ok (i, db1) ∧
            translations db1 !! i = Some eroeffnung ∧
            create_Translation
              (Translation.mk "Opening" "" "" "" (Some 2%positive) 1 1) db1
              = Raise IntegrityError) ∧
  (∃ i db1, create_Talk closing db_two_users = Ok (i, db1) ∧
            talks db1 !! i = Some closing ∧
            create_Talk closing db1 = Raise IntegrityError) ∧
  (∃ i db1 g1,
     create_Translator 1 true "" "" counting db_two_users
       = (Ok (i, db1), g1) ∧
     translators db1 !! i
       = Some (Translator.mk 1 true "" "" (token_at counting)) ∧
     (create_Translator 1 false "bio" "" g1 db1).1 = Raise IntegrityError).
Proof.
  destruct (unique_constraints db_two_users) as (H1 & H2 & H3).
  split; [|split].
  - apply H1; try reflexivity.
    + intros u Hu. discriminate Hu.
    + by eexists.
    + by eexists.
    + intros i0 r0 Hi. simpl in Hi. by rewrite lookup_empty in Hi.
  - apply H2; try reflexivity.
    + by eexists.
    + by eexists.
    + by eexists.
    + intros i0 r0 Hi [_ Hf]. simpl in Hi. apply lookup_singleton_Some in Hi as [_ <-].
      discriminate Hf.
  - apply H3.
    + by eexists.
    + intros i0 r0 Hi. simpl in Hi. by rewrite lookup_empty in Hi.
Defined.

(** ** The default of [secret_token] *)

(** *** The space of draws *)

Lemma elem_of_draws_space n l :
  l ∈ draws_space n ↔ length l = n ∧ Forall (λ x, x < 62) l.
Proof.
  revert l. induction n as [|n IH]; intros l; cbn [draws_space].
  - rewrite list_elem_of_singleton. split.
    + intros ->. by split.
    + intros [Hl _]. by destruct l.
  - rewrite list_elem_of_bind. split.
    + intros (x & (l' & -> & [Hl HF]%IH)%list_elem_of_fmap & Hx%elem_of_seq).
      split; [simpl; by rewrite Hl|]. constructor; [|done].
      rewrite allowed_chars_length in Hx. lia.
    + intros [Hl HF]. destruct l as [|x l]; [done|].
      apply Forall_cons in HF as [Hx HF]. exists x. split.
      * apply list_elem_of_fmap. exists l. split; [done|]. apply IH.
        split; [|done]. simpl in Hl. lia.
      * apply elem_of_seq. rewrite allowed_chars_length. lia.
Qed.

Lemma NoDup_draws_space n : NoDup (draws_space n).
Proof.
  induction n as [|n IH]; cbn [draws_space]; [apply NoDup_singleton|].
  apply NoDup_bind; [| |apply NoDup_seq].
  - intros x1 x2 l _ _ (l1 & -> & _)%list_elem_of_fmap
      (l2 & [= -> _] & _)%list_elem_of_fmap. done.
  - intros x _. apply NoDup_fmap_2; [|done]. by intros ?? [=].
Qed.

Lemma length_bind_const {A B} (f : A → list B) (l : list A) c :
  (∀ x, length (f x) = c) → length (l ≫= f) = length l * c.
Proof.
  intros Hf. induction l as [|x l IH]; [done|]. csimpl.
  by rewrite length_app, Hf, IH.
Qed.

Lemma length_draws_space n : length (draws_space n) = 62 ^ n.
Proof.
  induction n as [|n IH]; [done|]. cbn [draws_space].
  rewrite (length_bind_const (B := list nat) _ _ (62 ^ n)).
  - by rewrite length_seq, allowed_chars_length, Nat.pow_succ_r'.
  - intros x. by rewrite length_fmap.
Qed.

(** The runs whose second half repeats the first. *)
Lemma doubles_Permutation n :
  filter (λ l, take n l = drop n l) (draws_space (n + n))
  ≡ₚ (λ l : list nat, (l ++ l)%list) <$> draws_space n.
Proof.
  apply NoDup_Permutation.
  - apply NoDup_filter, NoDup_draws_space.
  - apply NoDup_fmap_2_strong; [|apply NoDup_draws_space].
    intros l1 l2 [Hl1 _]%elem_of_draws_space [Hl2 _]%elem_of_draws_space H.
    apply (f_equal (take n)) in H.
    by rewrite !take_app_length' in H.
  - intros l. rewrite list_elem_of_filter, list_elem_of_fmap.
    setoid_rewrite elem_of_draws_space. split.
    + intros (Heq & Hl & HF). exists (take n l). split.
      * rewrite Heq at 2. by rewrite take_drop.
      * split; [rewrite length_take; lia|by apply Forall_take].
    + intros (l' & -> & Hl & HF). split; [|split].
      * by rewrite take_app_length', drop_app_length'.
      * rewrite length_app. lia.
      * by apply Forall_app.
Qed.

Lemma count_doubles n :
  length (filter (λ l, take n l = drop n l) (draws_space (n + n))) = 62 ^ n.
Proof.
  by rewrite doubles_Permutation, length_fmap, length_draws_space.
Qed.

(** *** Draws and tokens *)

Lemma nth_draws n l k :
  l ∈ draws_space n → k < n → nth k l 0 `mod` 62 = nth k l 0.
Proof.
  intros [Hl HF]%elem_of_draws_space Hk. apply Nat.mod_small.
  destruct (lookup_lt_is_Some_2 l k) as [x Hx]; [lia|].
  rewrite (nth_lookup_Some _ _ _ _ Hx).
  exact (Forall_lookup_1 (λ x, x < 62) l k x HF Hx).
Qed.

Lemma halves_agree n l :
  length l = n + n →
  (∀ k, k < n → nth k l 0 = nth (n + k) l 0) ↔ take n l = drop n l.
Proof.
  intros Hl. split.
  - intros H. apply list_eq. intros i. rewrite lookup_drop.
    destruct (decide (i < n)) as [Hi|Hi].
    + rewrite lookup_take_lt by done.
      destruct (lookup_lt_is_Some_2 l i) as [x Hx]; [lia|].
      destruct (lookup_lt_is_Some_2 l (n + i)) as [y Hy]; [lia|].
      specialize (H i Hi).
      rewrite (nth_lookup_Some _ _ _ _ Hx), (nth_lookup_Some _ _ _ _ Hy) in H.
      congruence.
    + rewrite lookup_take_ge by lia. symmetry. apply lookup_ge_None. lia.
  - intros H k Hk. rewrite !nth_lookup, <- lookup_drop, <- H.
    by rewrite lookup_take_lt.
Qed.

Lemma string_of_draws_inj e e' pos pos' n :
  string_of_draws allowed_chars e pos n
    = string_of_draws allowed_chars e' pos' n →
  ∀ k, k < n → e (pos + k) `mod` 62 = e' (pos' + k) `mod` 62.
Proof.
  intros H k Hk. apply (f_equal (String.get k)) in H.
  rewrite !string_of_draws_get in H by done. injection H as H.
  by apply (draw_char_allowed_inj
              (λ j, match j with 0 => e (pos + k) | _ => e' (pos' + k) end)
              0 1).
Qed.

Lemma tokens_equal_halves l :
  l ∈ draws_space 128 →
  token_at (rng_of l) = token_at (advance 64 (rng_of l)) ↔
  take 64 l = drop 64 l.
Proof.
  intros Hl. pose proof Hl as [Hlen _]%elem_of_draws_space.
  rewrite <- (halves_agree 64) by done.
  unfold token_at, advance, rng_of. cbn [entropy cursor].
  rewrite string_of_draws_eq. setoid_rewrite draw_char_allowed_inj.
  split; intros H k Hk; specialize (H k Hk).
  - rewrite !(nth_draws 128) in H by (done || lia). exact H.
  - rewrite !(nth_draws 128) by (done || lia). exact H.
Qed.

Lemma draw_char_allowed e k :
  draw_char allowed_chars e k ∈ list_ascii_of_string allowed_chars.
Proof.
  unfold draw_char. rewrite allowed_chars_length.
  destruct (string_get_lt allowed_chars (e k `mod` 62)) as [a Ha].
  { rewrite allowed_chars_length. by apply Nat.mod_upper_bound. }
  rewrite Ha. change (a ∈ list_ascii_of_string allowed_chars).
  apply list_elem_of_lookup. exists (e k `mod` 62).
  by rewrite <- string_get_lookup.
Qed.

Lemma length_list_ascii_of_string s :
  length (list_ascii_of_string s) = String.length s.
Proof. induction s as [|c s IH]; simpl; [done|]. by rewrite IH. Qed.

Lemma token_at_alphabet g a :
  a ∈ list_ascii_of_string (token_at g) →
  a ∈ list_ascii_of_string allowed_chars.
Proof.
  intros (k & Hk)%list_elem_of_lookup.
  assert (k < 64) as Hlt.
  { apply mk_is_Some, lookup_lt_is_Some in Hk.
    rewrite length_list_ascii_of_string in Hk. unfold token_at in Hk.
    by rewrite string_of_draws_length in Hk. }
  rewrite <- string_get_lookup in Hk.
  unfold token_at in Hk. rewrite string_of_draws_get in Hk by done.
  injection Hk as <-. apply draw_char_allowed.
Qed.

(** *** Creating translators *)

Lemma create_Translator_first db g u c b ci :
  is_Some (users db !! u) →
  (∀ i0 r0, translators db !! i0 = Some r0 → Translator.user r0 ≠ u) →
  ∃ i db1,
    create_Translator u c b ci g db = (Ok (i, db1), advance 64 g) ∧
    translators db !! i = None ∧
    translators db1 = <[i := Translator.mk u c b ci (token_at g)]>
                        (translators db) ∧
    users db1 = users db.
Proof.
  intros Hu Hfree.
  destruct (insert_Translator_first db
              (Translator.mk u c b ci (token_at g)) Hu Hfree)
    as (i & db1 & E & Hi & Hdb1).
  exists i, db1. rewrite create_Translator_insert, E.
  split; [done|]. split; [done|]. split; [done|].
  unfold insert_Translator in E.
  destruct (check_fk db MUser _); [|done]. simpl in E.
  destruct (check_unique _ _ _); [|done]. simpl in E. by injection E as _ <-.
Qed.

Lemma create_two_Translators db g u1 c1 b1 ci1 u2 c2 b2 ci2 :
  u1 ≠ u2 →
  is_Some (users db !! u1) → is_Some (users db !! u2) →
  (∀ i r, translators db !! i = Some r →
          Translator.user r ≠ u1 ∧ Translator.user r ≠ u2) →
  ∃ i1 db1 i2 db2,
    create_Translator u1 c1 b1 ci1 g db = (Ok (i1, db1), advance 64 g) ∧
    create_Translator u2 c2 b2 ci2 (advance 64 g) db1
      = (Ok (i2, db2), advance 128 g) ∧
    translators db1 !! i1 = Some (Translator.mk u1 c1 b1 ci1 (token_at g)) ∧
    translators db2 !! i1 = Some (Translator.mk u1 c1 b1 ci1 (token_at g)) ∧
    translators db2 !! i2
      = Some (Translator.mk u2 c2 b2 ci2 (token_at (advance 64 g))).
Proof.
  intros Hne Hu1 Hu2 Hfree.
  destruct (create_Translator_first db g u1 c1 b1 ci1 Hu1)
    as (i1 & db1 & E1 & Hi1 & Hdb1 & Husers).
  { intros i0 r0 Hi. by apply (Hfree i0 r0 Hi). }
  destruct (create_Translator_first db1 (advance 64 g) u2 c2 b2 ci2)
    as (i2 & db2 & E2 & Hi2 & Hdb2 & _).
  { by rewrite Husers. }
  { intros i0 r0. rewrite Hdb1. intros [[_ <-]|[_ Hi]]%lookup_insert_Some.
    - done.
    - by apply (Hfree i0 r0 Hi). }
  exists i1, db1, i2, db2.
  assert (i1 ≠ i2) as Hi12.
  { intros ->. rewrite Hdb1, lookup_insert_eq in Hi2. done. }
  split; [done|].
  split; [rewrite E2; f_equal; unfold advance; simpl; f_equal; lia|].
  split; [by rewrite Hdb1, lookup_insert_eq|].
  split; [by rewrite Hdb2, lookup_insert_ne, Hdb1, lookup_insert_eq|].
  by rewrite Hdb2, lookup_insert_eq.
Qed.

Lemma two_tokens_spec db u1 u2 g :
  u1 ≠ u2 →
  is_Some (users db !! u1) → is_Some (users db !! u2) →
  (∀ i r, translators db !! i = Some r →
          Translator.user r ≠ u1 ∧ Translator.user r ≠ u2) →
  two_tokens db u1 u2 g = Some (token_at g, token_at (advance 64 g)).
Proof.
  intros Hne Hu1 Hu2 Hfree.
  destruct (create_two_Translators db g u1 false "" "" u2 false "" ""
              Hne Hu1 Hu2 Hfree)
    as (i1 & db1 & i2 & db2 & E1 & E2 & _ & H1 & H2).
  unfold two_tokens. rewrite E1, E2, H1, H2. reflexivity.
Qed.

Lemma tokens_collide_halves db u1 u2 l :
  u1 ≠ u2 →
  is_Some (users db !! u1) → is_Some (users db !! u2) →
  (∀ i r, translators db !! i = Some r →
          Translator.user r ≠ u1 ∧ Translator.user r ≠ u2) →
  l ∈ draws_space 128 →
  tokens_collide db u1 u2 l ↔ take 64 l = drop 64 l.
Proof.
  intros Hne Hu1 Hu2 Hfree Hl. unfold tokens_collide.
  rewrite two_tokens_spec by done. rewrite <- tokens_equal_halves by done.
  split.
  - intros (t & [= -> ->]). done.
  - intros H. exists (token_at (rng_of l)). by rewrite <- H.
Qed.

Lemma filter_length_iff {A} (P1 P2 : A → Prop)
    `{!∀ x, Decision (P1 x), !∀ x, Decision (P2 x)} (l : list A) :
  (∀ x, x ∈ l → P1 x ↔ P2 x) →
  length (filter P1 l) = length (filter P2 l).
Proof.
  induction l as [|a l IH]; intros Hiff; [done|].
  assert (length (filter P1 l) = length (filter P2 l)) as IH'.
  { apply IH. intros x Hx. apply Hiff. by right. }
  destruct (decide (P1 a)) as [Ha|Ha].
  - rewrite !filter_cons_True; [simpl; by rewrite IH'| |done].
    apply Hiff; [left|done].
  - rewrite !filter_cons_False; [done| |done].
    intros Ha'. apply Ha, Hiff; [left|done].
Qed.

Lemma two_tokens_inj db u1 u2 l l' :
  u1 ≠ u2 →
  is_Some (users db !! u1) → is_Some (users db !! u2) →
  (∀ i r, translators db !! i = Some r →
          Translator.user r ≠ u1 ∧ Translator.user r ≠ u2) →
  l ∈ draws_space 128 → l' ∈ draws_space 128 →
  two_tokens db u1 u2 (rng_of l) = two_tokens db u1 u2 (rng_of l') →
  l = l'.
Proof.
  intros Hne Hu1 Hu2 Hfree Hl Hl'. rewrite !two_tokens_spec by done.
  intros H. apply (inj Some), pair_equal_spec in H as [H1 H2].
  pose proof Hl as [Hlen _]%elem_of_draws_space.
  pose proof Hl' as [Hlen' _]%elem_of_draws_space.
  apply (nth_ext _ _ 0 0); [congruence|]. rewrite Hlen. intros k Hk.
  rewrite <- (nth_draws 128 l), <- (nth_draws 128 l') by done.
  destruct (decide (k < 64)) as [Hlt|Hge].
  - apply (string_of_draws_inj _ _ 0 0 64 H1 k Hlt).
  - replace k with (0 + 64 + (k - 64)) by lia.
    apply (string_of_draws_inj _ _ (0 + 64) (0 + 64) 64 H2 (k - 64)). lia.
Qed.

(** C6: the default of [secret_token].

    One creation, in any database, for a user that exists and has no
    Translator: it succeeds, draws 64 times, and stores a token of 64
    characters of the alphabet, the [k]-th being the one the [k]-th
    draw picks; no other Translator row changes, so a token is drawn
    when its row is created and stays as it is.

    Two creations one after the other, for two such users: the second
    token comes from the 64 draws after those of the first, the first
    token is still in place, and the two are equal exactly when the two
    runs of draws agree modulo the size of the alphabet.

    Counting: of the 62 ^ 128 runs of 128 draws, each as likely as any
    other, 62 ^ 64 give two equal tokens, one in 62 ^ 64; and two
    different runs never give the same pair of tokens, so every pair of
    tokens is as likely as any other: the two tokens are independent
    and uniform. *)
Theorem secret_token_default db :
  (∀ g u c b ci,
     is_Some (users db !! u) →
     (∀ i0 r0, translators db !! i0 = Some r0 → Translator.user r0 ≠ u) →
     ∃ i db1 t,
       create_Translator u c b ci g db = (Ok (i, db1), advance 64 g) ∧
       translators db1 !! i = Some (Translator.mk u c b ci t) ∧
       (∀ j, j ≠ i → translators db1 !! j = translators db !! j) ∧
       String.length t = 64 ∧
       (∀ k, k < 64 →
          String.get k t
            = Some (draw_char allowed_chars (entropy g) (cursor g + k))) ∧
       (∀ a, a ∈ list_ascii_of_string t →
             a ∈ list_ascii_of_string allowed_chars)) ∧
  (∀ g u1 c1 b1 ci1 u2 c2 b2 ci2,
     u1 ≠ u2 →
     is_Some (users db !! u1) → is_Some (users db !! u2) →
     (∀ i r, translators db !! i = Some r →
             Translator.user r ≠ u1 ∧ Translator.user r ≠ u2) →
     ∃ i1 db1 i2 db2 t1 t2,
       create_Translator u1 c1 b1 ci1 g db = (Ok (i1, db1), advance 64 g) ∧
       create_Translator u2 c2 b2 ci2 (advance 64 g) db1
         = (Ok (i2, db2), advance 128 g) ∧
       translators db1 !! i1 = Some (Translator.mk u1 c1 b1 ci1 t1) ∧
       translators db2 !! i1 = Some (Translator.mk u1 c1 b1 ci1 t1) ∧
       translators db2 !! i2 = Some (Translator.mk u2 c2 b2 ci2 t2) ∧
       String.length t1 = 64 ∧ String.length t2 = 64 ∧
       (∀ k, k < 64 →
          String.get k t1
            = Some (draw_char allowed_chars (entropy g) (cursor g + k))) ∧
       (∀ k, k < 64 →
          String.get k t2
            = Some (draw_char allowed_chars (entropy g)
                      (cursor g + 64 + k))) ∧
       (t1 = t2 ↔
        ∀ k, k < 64 →
          entropy g (cursor g + k) `mod` 62
            = entropy g (cursor g + 64 + k) `mod` 62)) ∧
  (∀ u1 u2,
     u1 ≠ u2 →
     is_Some (users db !! u1) → is_Some (users db !! u2) →
     (∀ i r, translators db !! i = Some r →
             Translator.user r ≠ u1 ∧ Translator.user r ≠ u2) →
     length (draws_space 128) = 62 ^ 128 ∧
     length (filter (tokens_collide db u1 u2) (draws_space 128)) = 62 ^ 64 ∧
     (∀ l l', l ∈ draws_space 128 → l' ∈ draws_space 128 →
              two_tokens db u1 u2 (rng_of l)
                = two_tokens db u1 u2 (rng_of l') →
              l = l')).
Proof.
  split; [|split].
  - intros g u c b ci Hu Hfree.
    destruct (create_Translator_first db g u c b ci Hu Hfree)
      as (i & db1 & E & Hi & Hdb1 & _).
    exists i, db1, (token_at g). split; [done|].
    split; [by rewrite Hdb1, lookup_insert_eq|].
    split; [intros j Hj; by rewrite Hdb1, lookup_insert_ne|].
    split; [apply string_of_draws_length|].
    split; [intros k Hk; by apply string_of_draws_get|].
    apply token_at_alphabet.
  - intros g u1 c1 b1 ci1 u2 c2 b2 ci2 Hne Hu1 Hu2 Hfree.
    destruct (create_two_Translators db g u1 c1 b1 ci1 u2 c2 b2 ci2
                Hne Hu1 Hu2 Hfree)
      as (i1 & db1 & i2 & db2 & E1 & E2 & H1 & H2 & H3).
    exists i1, db1, i2, db2, (token_at g), (token_at (advance 64 g)).
    split; [done|]. split; [done|]. split; [done|]. split; [done|].
    split; [done|].
    split; [apply string_of_draws_length|].
    split; [apply string_of_draws_length|].
    split; [intros k Hk; by apply string_of_draws_get|].
    split; [intros k Hk; by apply string_of_draws_get|].
    unfold token_at, advance. cbn [entropy cursor].
    rewrite string_of_draws_eq. by setoid_rewrite draw_char_allowed_inj.
  - intros u1 u2 Hne Hu1 Hu2 Hfree.
    split; [apply length_draws_space|]. split.
    + rewrite (filter_length_iff _ (λ l, take 64 l = drop 64 l)).
      * apply (count_doubles 64).
      * intros l Hl. by apply tokens_collide_halves.
    + intros l l'. by apply two_tokens_inj.
Qed.

Lemma secret_token_default_witness :
  (∃ i db1 t,
     create_Translator 1 true "" "" counting db_shift
       = (Ok (i, db1), advance 64 counting) ∧
     translators db1 !! i = Some (Translator.mk 1 true "" "" t) ∧
     String.length t = 64) ∧
  length (draws_space 128) = 62 ^ 128 ∧
  length (filter (tokens_collide db_two_users 1 2) (draws_space 128))
    = 62 ^ 64.
Proof.
  split.
  - destruct (secret_token_default db_shift) as [H _].
    destruct (H counting 1%positive true "" "")
      as (i & db1 & t & E & Hi & _ & Hlen & _).
    + by eexists.
    + intros i0 r0 Hi. simpl in Hi. by rewrite lookup_empty in Hi.
    + exists i, db1, t. exact (conj E (conj Hi Hlen)).
  - destruct (secret_token_default db_two_users) as (_ & _ & H).
    destruct (H 1%positive 2%positive) as (H1 & H2 & _).
    + discriminate.
    + by eexists.
    + by eexists.
    + intros i r Hi. simpl in Hi. by rewrite lookup_empty in Hi.
    + exact (conj H1 H2).
Defined.

(** ** Deletion in general *)

Lemma exists_obj_purge c db x :
  exists_obj (purge c db) x ↔ exists_obj db x ∧ x ∉ data c.
Proof.
  destruct x as [m i]. unfold exists_obj.
  destruct m; simpl; rewrite !elem_of_dom, keep_lookup;
    rewrite ?null_where_lookup; case_decide as H; rewrite ?fmap_is_Some;
    (split;
     [intros Hs; first [by apply is_Some_None in Hs|by split]
     |intros [Hs Hn]; first [done|by destruct Hn]]).
Qed.

Lemma reach_trans db o x y : reach db o x → reach db x y → reach db o y.
Proof.
  induction 1 as [|o o' x Hedge _ IH]; [done|].
  intros Hy. eapply reach_step; [exact Hedge|by apply IH].
Qed.

Lemma collect_Raise_protected d db c o e :
  rank o.1 < d → collect d db c o = Raise e →
  ∃ x, reach db o x ∧ protected db x.
Proof.
  revert c o. induction d as [|d IH]; intros c o Hd; [lia|].
  rewrite collect_S.
  intros (c' & f & _ & Hf)%foldM_Raise. revert Hf.
  unfold collect_field. case_decide as Hto; [|done].
  case_decide as Hnil; [done|].
  destruct (on_delete f) eqn:Hpol; [| |done].
  - intros (c'' & s & Hs%elem_of_related_objects & Hr)%foldM_Raise.
    apply IH in Hr as (x & Hx & Hp).
    + exists x. split; [|done]. by eapply reach_edge.
    + simpl. pose proof (rank_edge f). rewrite Hto in *. lia.
  - intros _. exists o. split; [constructor|].
    destruct (related_objects db f o.2) as [|i l] eqn:E; [done|].
    exists f, i. repeat split; [done..|].
    apply elem_of_related_objects. rewrite E. left.
Qed.

Lemma field_updates_SET_NULL db o u :
  reach_nulled db o u → on_delete u.1 = SET_NULL.
Proof. by intros (x & _ & _ & Hpol & _). Qed.

(** X1: a deletion that succeeds removes the objects the cascade
    reaches from the deleted one, and no others. *)
Theorem delete_removes_closure db o db' :
  delete db o = Ok db' →
  ∀ x, exists_obj db' x ↔ exists_obj db x ∧ ¬ reach db o x.
Proof.
  intros (c & -> & _ & Hd & _)%delete_inv x.
  rewrite exists_obj_purge. by rewrite Hd.
Qed.

Lemma delete_Raise_protected db o e :
  delete db o = Raise e → ∃ x, reach db o x ∧ protected db x.
Proof.
  unfold delete.
  destruct (collect recursion_limit db empty_collector o) as [c|e'] eqn:Ec;
    [done|].
  intros _. eapply collect_Raise_protected; [apply rank_limit|exact Ec].
Qed.

(** X2: a deletion either succeeds, and then nothing the cascade
    reaches was protected, or raises [ProtectedError], and then some
    object the cascade reaches is protected; it raises nothing else, in
    particular the recursion limit is never hit. *)
Theorem delete_outcome db o :
  (∃ db', delete db o = Ok db' ∧ deletable db o) ∨
  (delete db o = Raise ProtectedError ∧ ∃ x, reach db o x ∧ protected db x).
Proof.
  destruct (delete db o) as [db'|e] eqn:E.
  - left. exists db'. split; [done|].
    by apply delete_inv in E as (c & _ & Hsafe & _).
  - right. pose proof (delete_Raise _ _ _ E) as ->. split; [done|].
    by eapply delete_Raise_protected.
Qed.

(** X3: in a database whose foreign keys all point to existing rows,
    they still do after a deletion. *)
Theorem delete_preserves_integrity db o db' :
  referential_integrity db → delete db o = Ok db' →
  referential_integrity db'.
Proof.
  intros Hri (c & -> & Hsafe & Hd & Hu)%delete_inv f i p.
  unfold references. rewrite fk_column_purge.
  2:{ intros u Hin%Hu. by eapply field_updates_SET_NULL. }
  unfold column_after. case_decide as Hi; [done|].
  assert (fk_column db f !! i = Some (Some p) → (f, i) ∉ field_updates c →
          exists_obj (purge c db) (fk_to f, p)) as Hgoal.
  { intros Href Hnu. apply exists_obj_purge. split; [by apply (Hri f i)|].
    intros Hp%Hd. destruct (on_delete f) eqn:Hpol.
    - destruct Hi. apply Hd. eapply reach_trans; [exact Hp|].
      eapply reach_step; [|constructor]. by exists f.
    - destruct (Hsafe _ Hp). by exists f, i.
    - destruct Hnu. apply Hu. exists (fk_to f, p). split; [done|].
      by repeat split. }
  case_decide as Hupd.
  - destruct (fk_column db f !! i); done.
  - intros Href. by apply Hgoal.
Qed.


Lemma unprotected_models_spec m : m ∈ unprotected_models → unprotected m.
Proof.
  unfold unprotected_models. rewrite !elem_of_cons, elem_of_nil.
  intros [->|[->|[->|[->|[->|[->|[->|[]]]]]]]]; by intros [].
Qed.

Lemma cascade_edge_unprotected db o o' : cascade_edge db o o' → unprotected o'.1.
Proof.
  intros (f & _ & <- & Hpol & _). destruct f; try discriminate; by intros [].
Qed.

Lemma reach_unprotected db o x :
  unprotected o.1 → reach db o x → unprotected x.1.
Proof.
  intros Ho Hx. induction Hx as [|o o' x Hedge _ IH]; [done|].
  apply IH. by eapply cascade_edge_unprotected.
Qed.

(** X5: no protecting field points to a user, a talk, a translation,
    a translator, a spoken language, a shift or a shift assignment:
    deleting one always succeeds. *)
Theorem delete_never_blocked db o :
  o.1 ∈ unprotected_models → is_Ok (delete db o).
Proof.
  intros Ho%unprotected_models_spec. apply delete_is_Ok. intros x Hx.
  apply unprotected_not_protected. by eapply reach_unprotected.
Qed.

Lemma reach_to_User db o u : reach db o (MUser, u) → o = (MUser, u).
Proof.
  intros H. remember (MUser, u) as x eqn:Ex.
  induction H as [|o o' x (f & _ & Hm & _) _ IH]; [done|].
  specialize (IH Ex). subst. by destruct f.
Qed.

Lemma reach_nulled_author db o f i :
  reach_nulled db o (f, i) ↔
  f = Translation_author ∧
  ∃ u, o = (MUser, u) ∧ references db Translation_author i u.
Proof.
  split.
  - intros (x & Hx & (p & -> & Hf & Hr)%nulled_inv). simpl in *.
    apply reach_to_User in Hx as ->. split; [done|]. by exists p.
  - intros (-> & u & -> & Hr). by apply reach_nulled_User.
Qed.

(** X6: a row that is still there after a deletion is as it was,
    except a translation whose author was the deleted user, which has
    lost its author; a shift never loses its language. *)
Theorem delete_frame db o db' :
  delete db o = Ok db' →
  (∀ i r, users db' !! i = Some r → users db !! i = Some r) ∧
  (∀ i r, languages db' !! i = Some r → languages db !! i = Some r) ∧
  (∀ i r, conferences db' !! i = Some r → conferences db !! i = Some r) ∧
  (∀ i r, rooms db' !! i = Some r → rooms db !! i = Some r) ∧
  (∀ i r, talks db' !! i = Some r → talks db !! i = Some r) ∧
  (∀ i r, translators db' !! i = Some r → translators db !! i = Some r) ∧
  (∀ i r, translatorspeaks db' !! i = Some r →
          translatorspeaks db !! i = Some r) ∧
  (∀ i r, booths db' !! i = Some r → booths db !! i = Some r) ∧
  (∀ i r, shifts db' !! i = Some r → shifts db !! i = Some r) ∧
  (∀ i r, shiftassignments db' !! i = Some r →
          shiftassignments db !! i = Some r) ∧
  (∀ i r', translations db' !! i = Some r' →
     ∃ r, translations db !! i = Some r ∧
          if decide (o.1 = MUser ∧ Translation.author r = Some o.2)
          then r' = Translation.clear_author r else r' = r).
Proof.
  intros (c & -> & _ & _ & Hu)%delete_inv. simpl.
  assert (∀ {A} m (t : gmap positive A) i r,
            keep c m t !! i = Some r → t !! i = Some r) as Hkeep.
  { intros A m t i r. rewrite keep_lookup. by case_decide. }
  repeat split; try (by apply Hkeep).
  - intros i r Hi%Hkeep. rewrite null_where_lookup in Hi.
    case_decide as H; [|by destruct (shifts db !! i)].
    by apply Hu, reach_nulled_author in H as [? _].
  - intros i r' Hi%Hkeep. rewrite null_where_lookup in Hi.
    destruct (translations db !! i) as [r|] eqn:E; [|done].
    exists r. split; [done|]. simpl in Hi. injection Hi as <-.
    repeat case_decide; try done.
    + match goal with H : _ ∧ _ |- _ => destruct H as [Ho Ha] end.
      match goal with H : _ ∉ field_updates c |- _ => destruct H end.
      apply Hu, reach_nulled_author. split; [done|]. exists o.2.
      split; [by destruct o; simpl in *; subst|].
      apply references_Translation_author. eauto.
    + match goal with H : _ ∈ field_updates c |- _ =>
        apply Hu, reach_nulled_author in H as (_ & u & -> & Hr) end.
      apply references_Translation_author in Hr as (r0 & Hr0 & Ha).
      match goal with H : ¬ _ |- _ => destruct H end.
      split; [done|]. simpl. congruence.
Qed.

Lemma references_Talk_language db i l :
  references db Talk_language i l ↔
  ∃ r, talks db !! i = Some r ∧ Talk.language r = l.
Proof.
  unfold references. simpl. rewrite lookup_fmap_Some_Some.
  split; intros (r & ? & ?); exists r; split; congruence.
Qed.

Lemma references_Translation_language db i l :
  references db Translation_language i l ↔
  ∃ r, translations db !! i = Some r ∧ Translation.language r = l.
Proof.
  unfold references. simpl. rewrite lookup_fmap_Some_Some.
  split; intros (r & ? & ?); exists r; split; congruence.
Qed.

Lemma references_TranslatorSpeaks_language db i l :
  references db TranslatorSpeaks_language i l ↔
  ∃ r, translatorspeaks db !! i = Some r ∧ TranslatorSpeaks.language r = l.
Proof.
  unfold references. simpl. rewrite lookup_fmap_Some_Some.
  split; intros (r & ? & ?); exists r; split; congruence.
Qed.

Lemma references_Shift_language db i l :
  references db Shift_language i l ↔
  ∃ r, shifts db !! i = Some r ∧ Shift.language r = Some l.
Proof. unfold references. simpl. apply lookup_fmap_Some_Some. Qed.

Lemma references_Shift_booth db i b :
  references db Shift_booth i b ↔
  ∃ r, shifts db !! i = Some r ∧ Shift.booth r = b.
Proof.
  unfold references. simpl. rewrite lookup_fmap_Some_Some.
  split; intros (r & ? & ?); exists r; split; congruence.
Qed.

Lemma protected_Language db l :
  protected db (MLanguage, l) ↔
  (∃ i r, talks db !! i = Some r ∧ Talk.language r = l) ∨
  (∃ i r, translations db !! i = Some r ∧ Translation.language r = l) ∨
  (∃ i r, translatorspeaks db !! i = Some r ∧
          TranslatorSpeaks.language r = l) ∨
  (∃ i r, shifts db !! i = Some r ∧ Shift.language r = Some l).
Proof.
  split.
  - intros (f & i & Hto & Hpol & Hr). destruct f; try discriminate.
    + left. exists i. by apply references_Talk_language.
    + right; left. exists i. by apply references_Translation_language.
    + right; right; left. exists i.
      by apply references_TranslatorSpeaks_language.
    + right; right; right. exists i. by apply references_Shift_language.
  - intros [(i & Hr)|[(i & Hr)|[(i & Hr)|(i & Hr)]]].
    + exists Talk_language, i. repeat split.
      by apply references_Talk_language.
    + exists Translation_language, i. repeat split.
      by apply references_Translation_language.
    + exists TranslatorSpeaks_language, i. repeat split.
      by apply references_TranslatorSpeaks_language.
    + exists Shift_language, i. repeat split.
      by apply references_Shift_language.
Qed.

Lemma protected_Room db p :
  protected db (MRoom, p) ↔
  (∃ i r, talks db !! i = Some r ∧ Talk.room r = p) ∨
  (∃ i r, booths db !! i = Some r ∧ Booth.room r = p).
Proof.
  split.
  - intros (f & i & Hto & Hpol & Hr). destruct f; try discriminate.
    + left. exists i. by apply references_Talk_room.
    + right. exists i. by apply references_Booth_room.
  - intros [(i & Hr)|(i & Hr)].
    + exists Talk_room, i. repeat split. by apply references_Talk_room.
    + exists Booth_room, i. repeat split. by apply references_Booth_room.
Qed.

Lemma protected_Booth db p :
  protected db (MBooth, p) ↔ ∃ i r, shifts db !! i = Some r ∧ Shift.booth r = p.
Proof.
  split.
  - intros (f & i & Hto & Hpol & Hr). destruct f; try discriminate.
    exists i. by apply references_Shift_booth.
  - intros (i & Hr). exists Shift_booth, i. repeat split.
    by apply references_Shift_booth.
Qed.

Lemma protected_Conference db p :
  protected db (MConference, p) ↔
  (∃ i r, rooms db !! i = Some r ∧ Room.conference r = p) ∨
  (∃ i r, talks db !! i = Some r ∧ Talk.conference r = p).
Proof.
  split.
  - intros (f & i & Hto & Hpol & Hr). destruct f; try discriminate.
    + left. exists i. by apply references_Room_conference.
    + right. exists i. by apply references_Talk_conference.
  - intros [(i & Hr)|(i & Hr)].
    + exists Room_conference, i. repeat split.
      by apply references_Room_conference.
    + exists Talk_conference, i. repeat split.
      by apply references_Talk_conference.
Qed.

(** An object of a model that only protecting fields point to: it goes
    alone or not at all. *)
Lemma delete_alone_blocked db o :
  (∀ f, fk_to f = o.1 → on_delete f = PROTECT) →
  delete db o = Raise ProtectedError ↔ protected db o.
Proof.
  intros Hpol. split.
  - intros (x & Hx & Hp)%delete_Raise_protected.
    apply reach_no_cascade in Hx as ->; [done|].
    intros f Hf. rewrite (Hpol f Hf). done.
  - intros Hp. apply (delete_protected db o o); [constructor|done].
Qed.

Lemma delete_alone_inv db o db' :
  (∀ f, fk_to f = o.1 → on_delete f = PROTECT) →
  delete db o = Ok db' →
  ∃ c, db' = purge c db ∧ (∀ x, x ∈ data c ↔ x = o) ∧
       ∀ u, u ∉ field_updates c.
Proof.
  intros Hpol (c & -> & _ & Hd & Hu)%delete_inv. exists c. split; [done|].
  split.
  - intros x. rewrite Hd. apply reach_no_cascade.
    intros f Hf. by rewrite (Hpol f Hf).
  - intros [f i] (-> & u & -> & _)%Hu%reach_nulled_author.
    by specialize (Hpol Translation_author eq_refl).
Qed.

Lemma keep_alone {A} c m (t : gmap positive A) o :
  (∀ x, x ∈ data c ↔ x = o) →
  ∀ i, keep c m t !! i =
       if decide ((m, i) = o) then None else t !! i.
Proof.
  intros Hd i. rewrite keep_lookup.
  case_decide as H1; case_decide as H2; try done.
  - by apply Hd in H1.
  - destruct H1. by apply Hd.
Qed.

Ltac solve_untouched Hd Hu :=
  rewrite ?null_where_id by (intros ?; apply Hu);
  apply keep_id; intros ? [=]%Hd.

(** X8: deleting a Language raises [ProtectedError] exactly when a
    talk, a translation, a spoken language or a shift references it;
    when it succeeds, the language is gone and nothing else changed. *)
Theorem delete_Language_blocked db l :
  (delete db (MLanguage, l) = Raise ProtectedError ↔
   (∃ i r, talks db !! i = Some r ∧ Talk.language r = l) ∨
   (∃ i r, translations db !! i = Some r ∧ Translation.language r = l) ∨
   (∃ i r, translatorspeaks db !! i = Some r ∧
           TranslatorSpeaks.language r = l) ∨
   (∃ i r, shifts db !! i = Some r ∧ Shift.language r = Some l)) ∧
  (∀ db', delete db (MLanguage, l) = Ok db' →
     (∀ i, languages db' !! i =
           if decide (i = l) then None else languages db !! i) ∧
     users db' = users db ∧ conferences db' = conferences db ∧
     rooms db' = rooms db ∧ talks db' = talks db ∧
     translations db' = translations db ∧ translators db' = translators db ∧
     translatorspeaks db' = translatorspeaks db ∧ booths db' = booths db ∧
     shifts db' = shifts db ∧ shiftassignments db' = shiftassignments db).
Proof.
  assert (∀ f, fk_to f = MLanguage → on_delete f = PROTECT) as Hpol
    by (by intros []).
  split.
  - rewrite <- protected_Language. by apply delete_alone_blocked.
  - intros db' (c & -> & Hd & Hu)%delete_alone_inv; [|done]. simpl.
    split; [|repeat split; solve_untouched Hd Hu].
    intros i. rewrite (keep_alone _ _ _ _ Hd).
    repeat case_decide; congruence.
Qed.

(** X9: deleting a Room raises [ProtectedError] exactly when a talk
    or a booth references it, deleting a Booth exactly when a shift
    references it; when it succeeds, that one object is gone and all
    others are still there. *)
Theorem delete_Room_Booth_blocked db p :
  (delete db (MRoom, p) = Raise ProtectedError ↔
   (∃ i r, talks db !! i = Some r ∧ Talk.room r = p) ∨
   (∃ i r, booths db !! i = Some r ∧ Booth.room r = p)) ∧
  (delete db (MBooth, p) = Raise ProtectedError ↔
   ∃ i r, shifts db !! i = Some r ∧ Shift.booth r = p) ∧
  (∀ db', delete db (MRoom, p) = Ok db' →
     ∀ x, exists_obj db' x ↔ exists_obj db x ∧ x ≠ (MRoom, p)) ∧
  (∀ db', delete db (MBooth, p) = Ok db' →
     ∀ x, exists_obj db' x ↔ exists_obj db x ∧ x ≠ (MBooth, p)).
Proof.
  assert (∀ f, fk_to f = MRoom → on_delete f = PROTECT) as HRoom
    by (by intros []).
  assert (∀ f, fk_to f = MBooth → on_delete f = PROTECT) as HBooth
    by (by intros []).
  split; [|split; [|split]].
  - rewrite <- protected_Room. by apply delete_alone_blocked.
  - rewrite <- protected_Booth. by apply delete_alone_blocked.
  - intros db' (c & -> & Hd & _)%delete_alone_inv x; [|done].
    by rewrite exists_obj_purge, Hd.
  - intros db' (c & -> & Hd & _)%delete_alone_inv x; [|done].
    by rewrite exists_obj_purge, Hd.
Qed.

(** X10: deleting a Conference raises [ProtectedError] exactly when a
    room or a talk references it. *)
Theorem delete_Conference_blocked db p :
  delete db (MConference, p) = Raise ProtectedError ↔
  (∃ i r, rooms db !! i = Some r ∧ Room.conference r = p) ∨
  (∃ i r, talks db !! i = Some r ∧ Talk.conference r = p).
Proof.
  rewrite <- protected_Conference. apply delete_alone_blocked. by intros [].
Qed.

(** X7: deleting a user succeeds, removes the user with its
    Translator and TranslatorSpeaks rows, keeps every translation, and
    leaves the other users, the rows of other users and the tables that
    do not reference users as they were. *)
Theorem delete_User_cascades db u :
  ∃ db', delete db (MUser, u) = Ok db' ∧
    users db' !! u = None ∧
    (∀ i r, translators db !! i = Some r → Translator.user r = u →
            translators db' !! i = None) ∧
    (∀ i r, translatorspeaks db !! i = Some r → TranslatorSpeaks.user r = u →
            translatorspeaks db' !! i = None) ∧
    (∀ i, i ≠ u → users db' !! i = users db !! i) ∧
    (∀ i r, translators db !! i = Some r → Translator.user r ≠ u →
            translators db' !! i = Some r) ∧
    (∀ i r, translatorspeaks db !! i = Some r → TranslatorSpeaks.user r ≠ u →
            translatorspeaks db' !! i = Some r) ∧
    (∀ i r, shiftassignments db !! i = Some r → ShiftAssignment.user r ≠ u →
            shiftassignments db' !! i = Some r) ∧
    (∀ i, is_Some (translations db' !! i) ↔ is_Some (translations db !! i)) ∧
    languages db' = languages db ∧ conferences db' = conferences db ∧
    rooms db' = rooms db ∧ talks db' = talks db ∧ booths db' = booths db ∧
    shifts db' = shifts db.
Proof.
  destruct (delete_is_Ok db (MUser, u) (deletable_User db u)) as [db' E].
  exists db'. split; [done|].
  apply delete_inv in E as (c & -> & _ & Hd & Hu). simpl.
  assert (Hother : ∀ m i, m ≠ MUser → m ≠ MTranslator →
                          m ≠ MTranslatorSpeaks → m ≠ MShiftAssignment →
                          (m, i) ∉ data c).
  { intros m i ? ? ? ? Hi%Hd%reach_User.
    destruct Hi as [?|[(? & ? & _)|[(? & ? & _)|(? & ? & _)]]]; congruence. }
  assert (Hshift : ∀ i, (Shift_language, i) ∉ field_updates c).
  { intros i [? _]%Hu%reach_nulled_author. done. }
  split; [|split; [|split; [|split; [|split; [|split; [|split; [|split]]]]]]].
  - rewrite keep_lookup. case_decide as H; [done|]. destruct H. apply Hd.
    constructor.
  - intros i r Hi Ht. rewrite keep_lookup. case_decide as H; [done|].
    destruct H. apply Hd, reach_User. right; left. exists i. split; [done|].
    apply references_Translator_user. eauto.
  - intros i r Hi Ht. rewrite keep_lookup. case_decide as H; [done|].
    destruct H. apply Hd, reach_User. right; right; left. exists i.
    split; [done|]. apply references_TranslatorSpeaks_user. eauto.
  - intros i Hne. rewrite keep_lookup. case_decide as H; [|done].
    apply Hd, reach_User in H
      as [?|[(? & ? & _)|[(? & ? & _)|(? & ? & _)]]]; congruence.
  - intros i r Hi Hne. rewrite keep_lookup, Hi. case_decide as H; [|done].
    apply Hd, reach_User in H
      as [?|[(i' & [= <-] & Hr)|[(? & ? & _)|(? & ? & _)]]]; try done.
    apply references_Translator_user in Hr as (r' & ? & ?). congruence.
  - intros i r Hi Hne. rewrite keep_lookup, Hi. case_decide as H; [|done].
    apply Hd, reach_User in H
      as [?|[(? & ? & _)|[(i' & [= <-] & Hr)|(? & ? & _)]]]; try done.
    apply references_TranslatorSpeaks_user in Hr as (r' & ? & ?). congruence.
  - intros i r Hi Hne. rewrite keep_lookup, Hi. case_decide as H; [|done].
    apply Hd, reach_User in H
      as [?|[(? & ? & _)|[(? & ? & _)|(i' & [= <-] & Hr)]]]; try done.
    apply references_ShiftAssignment_user in Hr as (r' & ? & ?). congruence.
  - intros i. rewrite keep_lookup, null_where_lookup.
    case_decide as H; [by apply Hother in H|]. by rewrite fmap_is_Some.
  - repeat split; rewrite ?null_where_id by done;
      apply keep_id; intros i; by apply Hother.
Qed.

(** ** Creation keeps the references intact *)

Lemma check_fk_inv {B} db m p (k : unit → result B) b :
  check_fk db m p ≫= k = Ok b → exists_obj db (m, p) ∧ k () = Ok b.
Proof. unfold check_fk. by case_decide. Qed.

Lemma check_fk_null_inv {B} db m p (k : unit → result B) b :
  check_fk_null db m p ≫= k = Ok b →
  (∀ q, p = Some q → exists_obj db (m, q)) ∧ k () = Ok b.
Proof.
  destruct p as [q|]; simpl.
  - intros [H ?]%check_fk_inv. split; [|done]. by intros ? [= <-].
  - intros ?. split; [|done]. by intros ? [=].
Qed.

Lemma check_unique_inv {A K B} `{EqDecision K} (cols : A → K) r
    (t : gmap positive A) (k : unit → result B) b :
  check_unique cols r t ≫= k = Ok b →
  (∀ i r', t !! i = Some r' → cols r' ≠ cols r) ∧ k () = Ok b.
Proof.
  unfold check_unique. case_decide as H; [done|]. simpl. intros ?.
  split; [|done]. intros i r' Hi Heq. destruct H. by exists i, r'.
Qed.

Lemma integrity_grows db db' :
  referential_integrity db →
  (∀ x, exists_obj db x → exists_obj db' x) →
  (∀ f j p, references db' f j p →
            references db f j p ∨ exists_obj db' (fk_to f, p)) →
  referential_integrity db'.
Proof.
  intros Hri Hmono Hnew f j p [Hold|?]%Hnew; [|done].
  by apply Hmono, (Hri f j).
Qed.

Lemma elem_of_dom_insert {A} (t : gmap positive A) i r j :
  j ∈ dom t → j ∈ dom (<[i := r]> t).
Proof. rewrite dom_insert, elem_of_union. by right. Qed.

Ltac solve_grows :=
  intros [[] j] Hx; unfold exists_obj in *; simpl in *;
  first [done|by apply elem_of_dom_insert].

Ltac solve_new_reference Hmono :=
  let f := fresh "f" in
  let j := fresh "j" in
  let p := fresh "p" in
  let Href := fresh "Href" in
  intros f j p Href; unfold references in *;
  destruct f; simpl in *;
  first
    [by left
    |rewrite fmap_insert in Href;
     apply lookup_insert_Some in Href as [[<- Heq]|[_ Hold]]; [|by left];
     right; apply Hmono;
     first [injection Heq as <-; assumption
           |match goal with H : ∀ q, _ = Some q → _ |- _ => by apply H end]].

Ltac solve_create Hri :=
  let Hc := fresh "Hc" in
  let Hmono := fresh "Hmono" in
  intros ? ? ? Hc;
  unfold create_User, create_Language, create_Conference, create_Room,
    create_Talk, create_Translation, insert_Translator,
    create_TranslatorSpeaks, create_Booth, create_Shift,
    create_ShiftAssignment in Hc;
  repeat first
    [apply check_fk_inv in Hc as [? Hc]
    |apply check_fk_null_inv in Hc as [? Hc]
    |apply check_unique_inv in Hc as [_ Hc]];
  simpl in Hc; injection Hc as <- <-;
  match goal with
  | |- referential_integrity ?db' =>
      assert (∀ x, exists_obj _ x → exists_obj db' x) as Hmono
        by solve_grows;
      apply (integrity_grows _ _ Hri Hmono); solve_new_reference Hmono
  end.

(** X4: in a database whose foreign keys all point to existing rows,
    they still do after a row of any model has been created. *)
Theorem create_preserves_integrity db :
  referential_integrity db →
  (∀ r i db', create_User r db = Ok (i, db') → referential_integrity db') ∧
  (∀ r i db', create_Language r db = Ok (i, db') →
              referential_integrity db') ∧
  (∀ r i db', create_Conference r db = Ok (i, db') →
              referential_integrity db') ∧
  (∀ r i db', create_Room r db = Ok (i, db') → referential_integrity db') ∧
  (∀ r i db', create_Talk r db = Ok (i, db') → referential_integrity db') ∧
  (∀ r i db', create_Translation r db = Ok (i, db') →
              referential_integrity db') ∧
  (∀ user confirmed bio contact_info g i db' g',
     create_Translator user confirmed bio contact_info g db
       = (Ok (i, db'), g') →
     referential_integrity db') ∧
  (∀ r i db', create_TranslatorSpeaks r db = Ok (i, db') →
              referential_integrity db') ∧
  (∀ r i db', create_Booth r db = Ok (i, db') → referential_integrity db') ∧
  (∀ r i db', create_Shift r db = Ok (i, db') → referential_integrity db') ∧
  (∀ r i db', create_ShiftAssignment r db = Ok (i, db') →
              referential_integrity db').
Proof.
  intros Hri.
  repeat split;
    try (intros user confirmed bio contact_info g i db' g';
         rewrite create_Translator_insert; intros [= Hc _]; revert Hc;
         generalize (Translator.mk user confirmed bio contact_info (token_at g));
         intros r; revert r i db');
    solve_create Hri.
Qed.

(** ** [str.format] on the templates of [models.py] *)

Lemma string_app_assoc (s1 s2 s3 : string) : (s1 +:+ s2) +:+ s3 = s1 +:+ s2 +:+ s3.
Proof.
  induction s1 as [|c s1 IH]; [done|]. exact (f_equal (String c) IH).
Qed.

Ltac solve_format :=
  intros; unfold str_format; vm_compute;
  repeat match goal with
         | |- context [match ?f ?v with Ok _ => _ | Raise _ => _ end] =>
             destruct (f v); [|done]
         end;
  fold String.append; rewrite ?string_app_assoc; reflexivity.

Lemma format_Room to_str conf name :
  str_format to_str [] [("conf", conf); ("name", name)] "{conf}/{name}" =
  s1 ← to_str conf; s2 ← to_str name; Ok ((s1 +:+ "/") +:+ s2).
Proof. solve_format. Qed.

Lemma format_Talk to_str conf title :
  str_format to_str [] [("conf", conf); ("title", title)] "{conf}/{title}" =
  s1 ← to_str conf; s2 ← to_str title; Ok ((s1 +:+ "/") +:+ s2).
Proof. solve_format. Qed.

Lemma format_Translation to_str talk language :
  str_format to_str [] [("talk", talk); ("language", language)]
    "{talk} ({language})" =
  s1 ← to_str talk; s2 ← to_str language;
  Ok (((s1 +:+ " (") +:+ s2) +:+ ")").
Proof. solve_format. Qed.

Lemma format_TranslatorSpeaks to_str translator language :
  str_format to_str [] [("translator", translator); ("language", language)]
    "{translator}: {language}" =
  s1 ← to_str translator; s2 ← to_str language; Ok ((s1 +:+ ": ") +:+ s2).
Proof. solve_format. Qed.

Lemma format_Booth to_str room name :
  str_format to_str [] [("room", room); ("name", name)] "{room}/{name}" =
  s1 ← to_str room; s2 ← to_str name; Ok ((s1 +:+ "/") +:+ s2).
Proof. solve_format. Qed.

Lemma format_Shift to_str talk src dst :
  str_format to_str [] [("talk", talk); ("src", src); ("dst", dst)]
    "{talk} ({src} -> {dst})" =
  s1 ← to_str talk; s2 ← to_str src; s3 ← to_str dst;
  Ok (((((s1 +:+ " (") +:+ s2) +:+ " -> ") +:+ s3) +:+ ")").
Proof. solve_format. Qed.

Lemma format_ShiftAssignment to_str user langfrom langto talk :
  str_format to_str []
    [("user", user); ("langfrom", langfrom); ("langto", langto);
     ("talk", talk)]
    "{user} {langfrom} -> {langto} {talk}" =
  s1 ← to_str user; s2 ← to_str langfrom; s3 ← to_str langto;
  s4 ← to_str talk;
  Ok ((((((s1 +:+ " ") +:+ s2) +:+ " -> ") +:+ s3) +:+ " ") +:+ s4).
Proof. solve_format. Qed.

(** ** [str()] of the rows *)

#[local] Arguments py_str : simpl never.
#[local] Arguments str_format : simpl never.

Lemma py_str_instance d db o :
  py_str (S d) db (VInstance o) = instance_str (py_str d db) db o.
Proof. reflexivity. Qed.

Lemma py_str_VStr d db s : py_str (S d) db (VStr s) = Ok s.
Proof. reflexivity. Qed.

Lemma py_str_VNone d db : py_str (S d) db VNone = Ok "None".
Proof. reflexivity. Qed.

Lemma py_str_User d db i r :
  py_str (S d) db (VInstance (IUser i r)) = Ok (User.username r).
Proof. reflexivity. Qed.

Lemma py_str_Language d db i r :
  py_str (S d) db (VInstance (ILanguage i r)) = Ok (Language.code r).
Proof. reflexivity. Qed.

Lemma py_str_Conference d db i r :
  py_str (S d) db (VInstance (IConference i r)) = Ok (Conference.shortname r).
Proof. reflexivity. Qed.

Lemma fetch_row db m p o :
  get_instance db (m, p) = Some o → fetch db m p = Ok (VInstance o).
Proof. unfold fetch. by intros ->. Qed.

Ltac fetch_with H :=
  match type of H with
  | users ?db !! ?p = Some ?r =>
      rewrite (fetch_row db MUser p (IUser p r))
        by (unfold get_instance; simpl; by rewrite H)
  | languages ?db !! ?p = Some ?r =>
      rewrite (fetch_row db MLanguage p (ILanguage p r))
        by (unfold get_instance; simpl; by rewrite H)
  | conferences ?db !! ?p = Some ?r =>
      rewrite (fetch_row db MConference p (IConference p r))
        by (unfold get_instance; simpl; by rewrite H)
  | rooms ?db !! ?p = Some ?r =>
      rewrite (fetch_row db MRoom p (IRoom p r))
        by (unfold get_instance; simpl; by rewrite H)
  | talks ?db !! ?p = Some ?r =>
      rewrite (fetch_row db MTalk p (ITalk p r))
        by (unfold get_instance; simpl; by rewrite H)
  | shifts ?db !! ?p = Some ?r =>
      rewrite (fetch_row db MShift p (IShift p r))
        by (unfold get_instance; simpl; by rewrite H)
  end.

Lemma py_str_Room d db i r c :
  conferences db !! Room.conference r = Some c →
  py_str (S (S d)) db (VInstance (IRoom i r)) =
  Ok (Conference.shortname c +:+ "/" +:+ Room.name r).
Proof.
  intros Hc. rewrite py_str_instance. unfold instance_str, Room_str.
  unfold instance_attr. simpl assoc. fetch_with Hc. simpl.
  rewrite format_Room, py_str_Conference, py_str_VStr. simpl.
  by rewrite string_app_assoc.
Qed.

Lemma py_str_Talk d db i r c :
  conferences db !! Talk.conference r = Some c →
  py_str (S (S d)) db (VInstance (ITalk i r)) =
  Ok (Conference.shortname c +:+ "/" +:+ Talk.title r).
Proof.
  intros Hc. rewrite py_str_instance. unfold instance_str, Talk_str.
  unfold instance_attr. simpl assoc. fetch_with Hc. simpl.
  rewrite format_Talk, py_str_Conference, py_str_VStr. simpl.
  by rewrite string_app_assoc.
Qed.

Lemma py_str_Booth d db i r room c :
  rooms db !! Booth.room r = Some room →
  conferences db !! Room.conference room = Some c →
  py_str (S (S (S d))) db (VInstance (IBooth i r)) =
  Ok (Conference.shortname c +:+ "/" +:+ Room.name room +:+ "/" +:+
      Booth.name r).
Proof.
  intros Hr Hc. rewrite py_str_instance. unfold instance_str, Booth_str.
  unfold instance_attr. simpl assoc. fetch_with Hr. simpl.
  rewrite format_Booth, (py_str_Room _ _ _ _ c), py_str_VStr by done. simpl.
  by rewrite !string_app_assoc.
Qed.

Lemma py_str_Translation d db i r talk c l :
  talks db !! Translation.talk r = Some talk →
  conferences db !! Talk.conference talk = Some c →
  languages db !! Translation.language r = Some l →
  py_str (S (S (S d))) db (VInstance (ITranslation i r)) =
  Ok (Conference.shortname c +:+ "/" +:+ Talk.title talk +:+ " (" +:+
      Language.code l +:+ ")").
Proof.
  intros Ht Hc Hl. rewrite py_str_instance.
  unfold instance_str, Translation_str.
  unfold instance_attr. simpl assoc. fetch_with Ht. fetch_with Hl. simpl.
  rewrite format_Translation, (py_str_Talk _ _ _ _ c), py_str_Language by done.
  simpl. by rewrite !string_app_assoc.
Qed.

Lemma py_str_Translator d db i r u :
  users db !! Translator.user r = Some u →
  py_str (S (S d)) db (VInstance (ITranslator i r)) = Ok (User.username u).
Proof.
  intros Hu. rewrite py_str_instance. unfold instance_str, Translator_str.
  unfold instance_attr. simpl assoc. fetch_with Hu. simpl.
  by rewrite py_str_User.
Qed.

Lemma py_str_TranslatorSpeaks d db i r u l :
  users db !! TranslatorSpeaks.user r = Some u →
  languages db !! TranslatorSpeaks.language r = Some l →
  py_str (S (S d)) db (VInstance (ITranslatorSpeaks i r)) =
  Ok (User.username u +:+ ": " +:+ Language.code l).
Proof.
  intros Hu Hl. rewrite py_str_instance.
  unfold instance_str, TranslatorSpeaks_str.
  unfold instance_attr. simpl assoc. fetch_with Hu. fetch_with Hl. simpl.
  rewrite format_TranslatorSpeaks, py_str_User, py_str_Language. simpl.
  by rewrite !string_app_assoc.
Qed.

Lemma str_limit db v : str db v = py_str (S (S (S (S 7)))) db v.
Proof. reflexivity. Qed.

(** X11: [str] of a room, a talk, a booth and a translation, in
    terms of the rows they reference. *)
Theorem str_rows db :
  (∀ i r c,
     conferences db !! Room.conference r = Some c →
     str db (VInstance (IRoom i r)) =
     Ok (Conference.shortname c +:+ "/" +:+ Room.name r)) ∧
  (∀ i r c,
     conferences db !! Talk.conference r = Some c →
     str db (VInstance (ITalk i r)) =
     Ok (Conference.shortname c +:+ "/" +:+ Talk.title r)) ∧
  (∀ i r room c,
     rooms db !! Booth.room r = Some room →
     conferences db !! Room.conference room = Some c →
     str db (VInstance (IBooth i r)) =
     Ok (Conference.shortname c +:+ "/" +:+ Room.name room +:+ "/" +:+
         Booth.name r)) ∧
  (∀ i r talk c l,
     talks db !! Translation.talk r = Some talk →
     conferences db !! Talk.conference talk = Some c →
     languages db !! Translation.language r = Some l →
     str db (VInstance (ITranslation i r)) =
     Ok (Conference.shortname c +:+ "/" +:+ Talk.title talk +:+ " (" +:+
         Language.code l +:+ ")")).
Proof.
  repeat split; intros; rewrite str_limit.
  - by apply py_str_Room.
  - by apply py_str_Talk.
  - by eapply py_str_Booth.
  - by eapply py_str_Translation.
Qed.

(** X12: [str] of a translator is the user's name, [str] of a spoken
    language is the user's name and the language code. *)
Theorem str_translators db :
  (∀ i r u,
     users db !! Translator.user r = Some u →
     str db (VInstance (ITranslator i r)) = Ok (User.username u)) ∧
  (∀ i r u l,
     users db !! TranslatorSpeaks.user r = Some u →
     languages db !! TranslatorSpeaks.language r = Some l →
     str db (VInstance (ITranslatorSpeaks i r)) =
     Ok (User.username u +:+ ": " +:+ Language.code l)).
Proof.
  split; intros; rewrite str_limit.
  - by apply py_str_Translator.
  - by apply py_str_TranslatorSpeaks.
Qed.


Lemma language_or_any_None db i r :
  Shift.language r = None → Shift_language_or_any db i r = Ok (VStr "*").
Proof.
  intros H. unfold Shift_language_or_any, instance_attr. simpl. by rewrite H.
Qed.

Lemma language_or_any_Some db i r p l :
  Shift.language r = Some p → languages db !! p = Some l →
  Shift_language_or_any db i r = Ok (VInstance (ILanguage p l)).
Proof.
  intros H Hl. unfold Shift_language_or_any, instance_attr. simpl.
  rewrite H. simpl. fetch_with Hl. done.
Qed.

Lemma py_str_Shift d db i r talk c src dst :
  talks db !! Shift.talk r = Some talk →
  conferences db !! Talk.conference talk = Some c →
  languages db !! Talk.language talk = Some src →
  Shift_language_or_any db i r = Ok dst →
  py_str (S (S (S d))) db (VInstance (IShift i r)) =
  s ← py_str (S (S d)) db dst;
  Ok (Conference.shortname c +:+ "/" +:+ Talk.title talk +:+ " (" +:+
      Language.code src +:+ " -> " +:+ s +:+ ")").
Proof.
  intros Ht Hc Hsrc Hdst.
  rewrite py_str_instance. unfold instance_str, Shift_str. rewrite Hdst.
  unfold instance_attr, value_attr, instance_attr. simpl assoc.
  fetch_with Ht. simpl. fetch_with Hsrc. simpl.
  rewrite format_Shift, (py_str_Talk _ _ _ _ c), !py_str_Language by done.
  simpl. destruct (py_str (S (S d)) db dst); [|done]. simpl.
  by rewrite !string_app_assoc.
Qed.

Lemma py_str_ShiftAssignment d db i r u shift talk c src :
  users db !! ShiftAssignment.user r = Some u →
  shifts db !! ShiftAssignment.shift r = Some shift →
  talks db !! Shift.talk shift = Some talk →
  conferences db !! Talk.conference talk = Some c →
  languages db !! Talk.language talk = Some src →
  py_str (S (S (S d))) db (VInstance (IShiftAssignment i r)) =
  langto ← fetch_null db MLanguage (Shift.language shift);
  s ← py_str (S (S d)) db langto;
  Ok (User.username u +:+ " " +:+ Language.code src +:+ " -> " +:+ s +:+
      " " +:+ Conference.shortname c +:+ "/" +:+ Talk.title talk).
Proof.
  intros Hu Hs Ht Hc Hsrc.
  rewrite py_str_instance. unfold instance_str, ShiftAssignment_str.
  unfold instance_attr, value_attr, instance_attr. simpl assoc.
  fetch_with Hu. fetch_with Hs. simpl.
  fetch_with Ht. simpl. fetch_with Hsrc. simpl.
  destruct (fetch_null db MLanguage (Shift.language shift)) as [langto|];
    [|done]. simpl.
  rewrite format_ShiftAssignment, py_str_User, py_str_Language.
  rewrite (py_str_Talk _ _ _ _ c) by done. simpl.
  destruct (py_str (S (S d)) db langto) as [s|]; [|done]. simpl.
  by rewrite !string_app_assoc.
Qed.

(** X13: a shift without a language prints its target as [*], while
    a shift assignment of that shift prints it as [None], since
    [ShiftAssignment.__str__] reads [shift.language] and not
    [language_or_any]; with a language both print its code. *)
Theorem str_Shift_language db i r a shift u talk c src :
  shifts db !! ShiftAssignment.shift r = Some shift →
  users db !! ShiftAssignment.user r = Some u →
  talks db !! Shift.talk shift = Some talk →
  conferences db !! Talk.conference talk = Some c →
  languages db !! Talk.language talk = Some src →
  (Shift.language shift = None →
   str db (VInstance (IShift i shift)) =
     Ok (Conference.shortname c +:+ "/" +:+ Talk.title talk +:+ " (" +:+
         Language.code src +:+ " -> *)") ∧
   str db (VInstance (IShiftAssignment a r)) =
     Ok (User.username u +:+ " " +:+ Language.code src +:+ " -> None " +:+
         Conference.shortname c +:+ "/" +:+ Talk.title talk)) ∧
  (∀ p dst, Shift.language shift = Some p → languages db !! p = Some dst →
   str db (VInstance (IShift i shift)) =
     Ok (Conference.shortname c +:+ "/" +:+ Talk.title talk +:+ " (" +:+
         Language.code src +:+ " -> " +:+ Language.code dst +:+ ")") ∧
   str db (VInstance (IShiftAssignment a r)) =
     Ok (User.username u +:+ " " +:+ Language.code src +:+ " -> " +:+
         Language.code dst +:+ " " +:+
         Conference.shortname c +:+ "/" +:+ Talk.title talk)).
Proof.
  intros Hs Hu Ht Hc Hsrc. split.
  - intros Hnone. split; rewrite str_limit.
    + rewrite (py_str_Shift _ _ _ _ talk c src (VStr "*")); try done.
      by apply language_or_any_None.
    + rewrite (py_str_ShiftAssignment _ _ _ _ u shift talk c src) by done.
      by rewrite Hnone.
  - intros p dst Hsome Hdst. split; rewrite str_limit.
    + rewrite (py_str_Shift _ _ _ _ talk c src (VInstance (ILanguage p dst)));
        try done.
      by apply language_or_any_Some.
    + rewrite (py_str_ShiftAssignment _ _ _ _ u shift talk c src) by done.
      rewrite Hsome. simpl. fetch_with Hdst. done.
Qed.

(** ** The properties never return *)

(** X14: the [format] call of [slides_url] raises [KeyError] for
    every argument: the template names the field [guid], the argument
    is positional. *)
Theorem slides_url_format_KeyError to_str guid :
  str_format to_str [guid] [] "https://speakers.c3lingo.org/talks/{guid}/"
    = Raise KeyError.
Proof. vm_compute. reflexivity. Qed.

Lemma fetch_None db m p :
  get_instance db (m, p) = None → fetch db m p = Raise DoesNotExist.
Proof. unfold fetch. by intros ->. Qed.

Lemma Talk_slug_dangling globals db i self :
  conferences db !! Talk.conference self = None →
  Talk_slug globals db i self = Raise DoesNotExist.
Proof.
  intros Hc. unfold Talk_slug, instance_attr. simpl.
  rewrite fetch_None; [done|]. unfold get_instance. simpl. by rewrite Hc.
Qed.

(** X15: in any database, [slug], [watch_url] and [slides_url] of a
    talk raise: [AttributeError], or [DoesNotExist] when the conference
    of the talk is missing. *)
Theorem Talk_properties_never_return globals db i self :
  getattr globals db (ITalk i self) "slug" =
    Raise (if decide (is_Some (conferences db !! Talk.conference self))
           then AttributeError else DoesNotExist) ∧
  getattr globals db (ITalk i self) "watch_url" =
    Raise (if decide (is_Some (conferences db !! Talk.conference self))
           then AttributeError else DoesNotExist) ∧
  getattr globals db (ITalk i self) "slides_url" = Raise AttributeError.
Proof.
  assert (Talk_slug globals db i self =
          Raise (if decide (is_Some (conferences db !! Talk.conference self))
                 then AttributeError else DoesNotExist)) as Hslug.
  { case_decide as Hc.
    - by apply Talk_slug_raises.
    - apply Talk_slug_dangling. by apply eq_None_not_Some. }
  split; [exact Hslug|]. split; [|reflexivity].
  change (Talk_watch_url globals db i self = Raise
    (if decide (is_Some (conferences db !! Talk.conference self))
     then AttributeError else DoesNotExist)).
  unfold Talk_watch_url. by rewrite Hslug.
Qed.

(** X16: in any database, [avatar_url] of a translator raises:
    [TypeError], or [DoesNotExist] when the user is missing. *)
Theorem avatar_url_never_returns globals db i self :
  getattr globals db (ITranslator i self) "avatar_url" =
    Raise (if decide (is_Some (users db !! Translator.user self))
           then TypeError else DoesNotExist).
Proof.
  change (Translator_avatar_url db i self = Raise
    (if decide (is_Some (users db !! Translator.user self))
     then TypeError else DoesNotExist)).
  case_decide as Hu.
  - destruct Hu as [u Hu]. by eapply avatar_url_TypeError.
  - apply eq_None_not_Some in Hu.
    unfold Translator_avatar_url, instance_attr. simpl.
    rewrite fetch_None; [done|]. unfold get_instance. simpl. by rewrite Hu.
Qed.

(** ** Tables without a uniqueness constraint *)

Lemma create_TranslatorSpeaks_Ok db r :
  is_Some (users db !! TranslatorSpeaks.user r) →
  is_Some (languages db !! TranslatorSpeaks.language r) →
  ∃ i db1,
    create_TranslatorSpeaks r db = Ok (i, db1) ∧
    translatorspeaks db !! i = None ∧
    translatorspeaks db1 = <[i := r]> (translatorspeaks db) ∧
    users db1 = users db ∧ languages db1 = languages db.
Proof.
  intros Hu Hl. unfold create_TranslatorSpeaks.
  rewrite !check_fk_Ok by solve_exists_obj. simpl.
  eexists _, _. split; [done|]. split; [apply next_pk_fresh|done].
Qed.

Lemma create_ShiftAssignment_Ok db r :
  is_Some (shifts db !! ShiftAssignment.shift r) →
  is_Some (users db !! ShiftAssignment.user r) →
  ∃ i db1,
    create_ShiftAssignment r db = Ok (i, db1) ∧
    shiftassignments db !! i = None ∧
    shiftassignments db1 = <[i := r]> (shiftassignments db) ∧
    shifts db1 = shifts db ∧ users db1 = users db.
Proof.
  intros Hs Hu. unfold create_ShiftAssignment.
  rewrite !check_fk_Ok by solve_exists_obj. simpl.
  eexists _, _. split; [done|]. split; [apply next_pk_fresh|done].
Qed.

(** X17: [TranslatorSpeaks] and [ShiftAssignment] declare no
    uniqueness: the same row can be created twice, under two keys; a
    shift assignment created from a shift and a user is waitlisted, not
    freeloaded, and has an empty comment. *)
Theorem no_unique_constraint db :
  (∀ r,
     is_Some (users db !! TranslatorSpeaks.user r) →
     is_Some (languages db !! TranslatorSpeaks.language r) →
     ∃ i1 db1 i2 db2,
       create_TranslatorSpeaks r db = Ok (i1, db1) ∧
       create_TranslatorSpeaks r db1 = Ok (i2, db2) ∧
       i1 ≠ i2 ∧
       translatorspeaks db2 !! i1 = Some r ∧
       translatorspeaks db2 !! i2 = Some r) ∧
  (∀ shift user,
     is_Some (shifts db !! shift) → is_Some (users db !! user) →
     ∃ i1 db1 i2 db2 r,
       create_ShiftAssignment (ShiftAssignment_default shift user) db
         = Ok (i1, db1) ∧
       create_ShiftAssignment (ShiftAssignment_default shift user) db1
         = Ok (i2, db2) ∧
       i1 ≠ i2 ∧
       shiftassignments db2 !! i1 = Some r ∧
       shiftassignments db2 !! i2 = Some r ∧
       ShiftAssignment.shift r = shift ∧ ShiftAssignment.user r = user ∧
       ShiftAssignment.waitlisted r = true ∧
       ShiftAssignment.freeloaded r = false ∧
       ShiftAssignment.comment r = "").
Proof.
  split.
  - intros r Hu Hl.
    destruct (create_TranslatorSpeaks_Ok db r Hu Hl)
      as (i1 & db1 & E1 & Hi1 & Hdb1 & Hu1 & Hl1).
    destruct (create_TranslatorSpeaks_Ok db1 r)
      as (i2 & db2 & E2 & Hi2 & Hdb2 & _); [by rewrite Hu1|by rewrite Hl1|].
    exists i1, db1, i2, db2. split; [done|]. split; [done|].
    assert (i1 ≠ i2) as Hne.
    { intros ->. by rewrite Hdb1, lookup_insert_eq in Hi2. }
    split; [done|]. rewrite Hdb2, Hdb1. split.
    + by rewrite lookup_insert_ne, lookup_insert_eq.
    + by rewrite lookup_insert_eq.
  - intros shift user Hs Hu.
    destruct (create_ShiftAssignment_Ok db (ShiftAssignment_default shift user)
                Hs Hu) as (i1 & db1 & E1 & Hi1 & Hdb1 & Hs1 & Hu1).
    destruct (create_ShiftAssignment_Ok db1
                (ShiftAssignment_default shift user))
      as (i2 & db2 & E2 & Hi2 & Hdb2 & _); [by rewrite Hs1|by rewrite Hu1|].
    exists i1, db1, i2, db2, (ShiftAssignment_default shift user).
    split; [done|]. split; [done|].
    assert (i1 ≠ i2) as Hne.
    { intros ->. by rewrite Hdb1, lookup_insert_eq in Hi2. }
    split; [done|]. rewrite Hdb2, Hdb1. split.
    + by rewrite lookup_insert_ne, lookup_insert_eq.
    + split; [by rewrite lookup_insert_eq|done].
Qed.

(** ** Instances on the sample database *)

Lemma db_shift_integrity : referential_integrity db_shift.
Proof.
  intros f i p H. unfold references in H.
  destruct f; simpl in H;
    apply lookup_fmap_Some in H as (r & Hp & Hr);
    first [by rewrite lookup_empty in Hr
          |apply lookup_singleton_Some in Hr as [<- <-]];
    first [discriminate Hp|injection Hp as <-];
    unfold exists_obj; simpl; apply elem_of_dom; by eexists.
Qed.

Lemma delete_removes_closure_witness :
  ∃ db', delete db_shift (MTalk, 1%positive) = Ok db' ∧
         ∀ x, exists_obj db' x ↔
              exists_obj db_shift x ∧ ¬ reach db_shift (MTalk, 1%positive) x.
Proof.
  destruct (delete db_shift (MTalk, 1%positive)) as [db'|e] eqn:E;
    [|by vm_compute in E].
  exists db'. split; [reflexivity|].
  exact (delete_removes_closure db_shift (MTalk, 1%positive) db' E).
Defined.

Lemma delete_preserves_integrity_witness :
  ∃ db', delete db_shift (MTalk, 1%positive) = Ok db' ∧
         referential_integrity db'.
Proof.
  destruct (delete db_shift (MTalk, 1%positive)) as [db'|e] eqn:E;
    [|by vm_compute in E].
  exists db'. split; [reflexivity|].
  exact (delete_preserves_integrity db_shift (MTalk, 1%positive) db'
           db_shift_integrity E).
Defined.

Lemma create_preserves_integrity_witness :
  ∃ i db', create_Room (Room.mk 1 "Borg") db_shift = Ok (i, db') ∧
           referential_integrity db'.
Proof.
  destruct (create_Room (Room.mk 1 "Borg") db_shift) as [[i db']|e] eqn:E;
    [|by vm_compute in E].
  exists i, db'. split; [reflexivity|].
  destruct (create_preserves_integrity db_shift db_shift_integrity)
    as (_ & _ & _ & H & _).
  exact (H _ _ _ E).
Defined.

Lemma delete_never_blocked_witness :
  is_Ok (delete db_shift (MUser, 1%positive)).
Proof.
  apply (delete_never_blocked db_shift (MUser, 1%positive)). simpl. left.
Defined.

Lemma delete_frame_witness :
  ∃ db', delete db_shift (MUser, 1%positive) = Ok db' ∧
         ∀ i r', translations db' !! i = Some r' →
           ∃ r, translations db_shift !! i = Some r ∧
                if decide (Translation.author r = Some 1%positive)
                then r' = Translation.clear_author r else r' = r.
Proof.
  destruct (delete db_shift (MUser, 1%positive)) as [db'|e] eqn:E;
    [|by vm_compute in E].
  exists db'. split; [reflexivity|].
  destruct (delete_frame db_shift (MUser, 1%positive) db' E)
    as (_ & _ & _ & _ & _ & _ & _ & _ & _ & _ & H).
  intros i r' Hi. destruct (H i r' Hi) as (r & Hr & Hcase). exists r.
  split; [exact Hr|]. simpl in Hcase.
  destruct (decide (Translation.author r = Some 1%positive)) as [Ha|Ha].
  - rewrite decide_True in Hcase by done. exact Hcase.
  - rewrite decide_False in Hcase by (by intros [_ ?]). exact Hcase.
Defined.

Lemma str_rows_witness :
  str db_shift (VInstance (IRoom 1 (Room.mk 1 "Ada"))) = Ok "36c3/Ada" ∧
  str db_shift (VInstance (IBooth 1 (Booth.mk 1 "Ada 1" "" "" 2 3)))
    = Ok "36c3/Ada/Ada 1".
Proof.
  destruct (str_rows db_shift) as (HRoom & _ & HBooth & _). split.
  - apply (HRoom 1%positive (Room.mk 1 "Ada")
             (Conference.mk "36c3" "36C3" "" None None "")).
    reflexivity.
  - apply (HBooth 1%positive (Booth.mk 1 "Ada 1" "" "" 2 3) (Room.mk 1 "Ada")
             (Conference.mk "36c3" "36C3" "" None None ""));
      reflexivity.
Defined.

Lemma str_Shift_language_witness :
  str db_shift (VInstance (IShift 1 (Shift.mk 1 1 None)))
    = Ok "36c3/Opening (de -> *)" ∧
  str db_shift (VInstance (IShiftAssignment 1 (ShiftAssignment_default 1 1)))
    = Ok "alice de -> None 36c3/Opening".
Proof.
  destruct (str_Shift_language db_shift 1 (ShiftAssignment_default 1 1) 1
              (Shift.mk 1 1 None) (User.mk "alice" "Alice@Example.org")
              (Talk.mk "Opening" "" "" "" 1 "11223" "guid" "" "" "" 1 1
                       "2019-12-27 11:00" "2019-12-27 11:30")
              (Conference.mk "36c3" "36C3" "" None None "")
              (Language.mk "de" "German" "Deutsch"))
    as [H _]; try reflexivity.
  apply H. reflexivity.
Defined.

Lemma no_unique_constraint_witness :
  ∃ i1 db1 i2 db2 r,
    create_ShiftAssignment (ShiftAssignment_default 1 1) db_shift
      = Ok (i1, db1) ∧
    create_ShiftAssignment (ShiftAssignment_default 1 1) db1 = Ok (i2, db2) ∧
    i1 ≠ i2 ∧
    shiftassignments db2 !! i1 = Some r ∧
    shiftassignments db2 !! i2 = Some r ∧
    ShiftAssignment.shift r = 1%positive ∧
    ShiftAssignment.user r = 1%positive ∧
    ShiftAssignment.waitlisted r = true ∧
    ShiftAssignment.freeloaded r = false ∧
    ShiftAssignment.comment r = "".
Proof.
  destruct (no_unique_constraint db_shift) as [_ H].
  apply (H 1%positive 1%positive); by eexists.
Defined.

Lemma str_translators_witness :
  str db_shift (VInstance (ITranslator 1 alice)) = Ok "alice" ∧
  str db_shift (VInstance (ITranslatorSpeaks 1 (TranslatorSpeaks.mk 1 1)))
    = Ok "alice: de".
Proof.
  destruct (str_translators db_shift) as [H1 H2]. split.
  - apply (H1 1%positive alice (User.mk "alice" "Alice@Example.org")).
    reflexivity.
  - apply (H2 1%positive (TranslatorSpeaks.mk 1 1)
             (User.mk "alice" "Alice@Example.org")
             (Language.mk "de" "German" "Deutsch")); reflexivity.
Defined.
